(** * Gradient-based maximum likelihood for Gaussian mixtures

    A shallow embedding of the numerical core of the notebook
    [gmm/GMM with PyTorch.ipynb]: the parametrisation of a precision
    matrix by its Cholesky factor, the Gaussian log-likelihood [loglik]
    and its loss [nll], the helper [logsumexp], the mixture loss
    [mixture_nll] and the two optimisation loops.

    Tensors of floating point numbers are modelled by matrices over the
    real numbers of the Standard Library: the statements below are about
    the mathematical functions that the code computes, not about rounding.
    Shapes that the notebook fixes when it builds a tensor are indices of
    the matrix types; shapes that the code computes at run time ([view],
    broadcasting) are computed here as well, and the Python exceptions that
    such a step can raise are values of [result]. *)

From Stdlib Require Import Reals ClassicalEpsilon FunctionalExtensionality.
From Stdlib Require Import String DecimalString.
From HB Require Import structures.
From mathcomp Require Import boot order algebra.

Set Implicit Arguments.
Unset Strict Implicit.
Unset Printing Implicit Defensive.

(* The reals are written in the notations of [ring_scope] throughout. *)
Delimit Scope R_scope with Re.
Bind Scope ring_scope with R.
#[local] Arguments exp _%_ring_scope.
#[local] Arguments ln _%_ring_scope.
Local Open Scope ring_scope.

(** ** The real numbers as a MathComp real field *)

Module RealInstances.

Definition Req_bool (x y : R) : bool :=
  if Req_dec_T x y is left _ then true else false.

Lemma Req_boolP : Equality.axiom Req_bool.
Proof. by move=> x y; rewrite /Req_bool; case: Req_dec_T => h; constructor. Qed.

HB.instance Definition _ := hasDecEq.Build R Req_boolP.

Definition R_find (A : pred R) (n : nat) : option R :=
  match excluded_middle_informative (exists x, A x) with
  | left ex => Some (proj1_sig (constructive_indefinite_description _ ex))
  | right _ => None
  end.

Lemma R_find_correct (A : pred R) n x : R_find A n = Some x -> A x.
Proof.
rewrite /R_find; case: excluded_middle_informative => // ex [<-].
exact: (proj2_sig (constructive_indefinite_description _ ex)).
Qed.

Lemma R_find_complete (A : pred R) :
  (exists x, A x) -> exists n, R_find A n.
Proof.
by move=> ex; exists 0%N; rewrite /R_find; case: excluded_middle_informative.
Qed.

Lemma R_find_ext (A B : pred R) : A =1 B -> R_find A =1 R_find B.
Proof. by move=> /functional_extensionality ->. Qed.

HB.instance Definition _ :=
  hasChoice.Build R R_find_correct R_find_complete R_find_ext.

Lemma RaddA : associative Rplus.
Proof. by move=> x y z; rewrite Rplus_assoc. Qed.

Lemma RmulA : associative Rmult.
Proof. by move=> x y z; rewrite Rmult_assoc. Qed.

HB.instance Definition _ :=
  GRing.isZmodule.Build R RaddA Rplus_comm Rplus_0_l Rplus_opp_l.

Lemma R1_neq0 : R1 != 0 :> R.
Proof. by apply/eqP; exact: R1_neq_R0. Qed.

HB.instance Definition _ :=
  GRing.Zmodule_isComNzRing.Build R
    RmulA Rmult_comm Rmult_1_l Rmult_plus_distr_r R1_neq0.

Lemma RmulVf (x : R) : x != 0 -> Rinv x * x = 1.
Proof. by move=> /eqP x0; exact: Rinv_l. Qed.

HB.instance Definition _ := GRing.ComNzRing_isField.Build R RmulVf Rinv_0.

Definition Rle_bool (x y : R) : bool :=
  if Rle_dec x y is left _ then true else false.

Definition Rlt_bool (x y : R) : bool :=
  if Rlt_dec x y is left _ then true else false.

Lemma RleP (x y : R) : reflect (Rle x y) (Rle_bool x y).
Proof. by rewrite /Rle_bool; case: Rle_dec => h; constructor. Qed.

Lemma RltP (x y : R) : reflect (Rlt x y) (Rlt_bool x y).
Proof. by rewrite /Rlt_bool; case: Rlt_dec => h; constructor. Qed.

Lemma R_le0_add (x y : R) :
  Rle_bool 0 x -> Rle_bool 0 y -> Rle_bool 0 (x + y).
Proof.
by move=> /RleP hx /RleP hy; apply/RleP; exact: Rplus_le_le_0_compat.
Qed.

Lemma R_le0_mul (x y : R) :
  Rle_bool 0 x -> Rle_bool 0 y -> Rle_bool 0 (x * y).
Proof. by move=> /RleP hx /RleP hy; apply/RleP; exact: Rmult_le_pos. Qed.

Lemma R_le0_anti (x : R) : Rle_bool 0 x -> Rle_bool x 0 -> x = 0.
Proof. by move=> /RleP hx /RleP hy; exact: Rle_antisym. Qed.

Lemma R_sub_ge0 (x y : R) : Rle_bool 0 (y - x) = Rle_bool x y.
Proof.
apply/RleP/RleP => h.
  by apply: Rminus_le; apply: Ropp_le_cancel; rewrite Ropp_0 Ropp_minus_distr.
by apply: Rge_le; apply: Rge_minus; apply: Rle_ge.
Qed.

Lemma R_le0_total (x : R) : Rle_bool 0 x || Rle_bool x 0.
Proof.
case: (Rle_lt_dec 0 x) => h; first by apply/orP; left; apply/RleP.
by apply/orP; right; apply/RleP; apply: Rlt_le.
Qed.

Lemma R_normN (x : R) : Rabs (- x) = Rabs x.
Proof. exact: Rabs_Ropp. Qed.

Lemma R_ge0_norm (x : R) : Rle_bool 0 x -> Rabs x = x.
Proof. by move=> /RleP h; exact: Rabs_pos_eq. Qed.

Lemma R_lt_def (x y : R) : Rlt_bool x y = (y != x) && Rle_bool x y.
Proof.
apply/RltP/andP => [h|[/eqP h /RleP [] //]].
  split; last by apply/RleP; exact: Rlt_le.
  by apply/eqP => e; move: h; rewrite e; exact: Rlt_irrefl.
by move=> e; case: h.
Qed.

HB.instance Definition _ :=
  Num.IntegralDomain_isLeReal.Build R
    R_le0_add R_le0_mul R_le0_anti R_sub_ge0 R_le0_total
    R_normN R_ge0_norm R_lt_def.

End RealInstances.
Export RealInstances.

Import Order.TTheory GRing.Theory Num.Theory.

(** ** Tensor primitives of the numerical library

    Each definition is the mathematical function that the PyTorch
    primitive of that name computes on tensors of the shapes at which the
    notebook calls it. *)

Section TorchPrimitives.

(** [math.log] and [np.pi]; [0.5] is the Python literal. *)
Definition log (x : R) : R := ln x.
Definition pi : R := PI.
Definition half : R := 0.5%Re.

Variables m n : nat.

(** [torch.exp], [torch.log]: elementwise. *)
Definition torch_exp (A : 'M[R]_(m, n)) : 'M[R]_(m, n) := map_mx exp A.
Definition torch_log (A : 'M[R]_(m, n)) : 'M[R]_(m, n) := map_mx ln A.

(** [A * B] on tensors of one shape: the elementwise product. *)
Definition mul_ew (A B : 'M[R]_(m, n)) : 'M[R]_(m, n) :=
  \matrix_(i, j) (A i j * B i j).

(** [A ** 2]: elementwise square. *)
Definition pow2_ew (A : 'M[R]_(m, n)) : 'M[R]_(m, n) :=
  \matrix_(i, j) (A i j) ^+ 2.

(** [torch.sum(A, dim=0)] and [torch.sum(A, dim=1)]. *)
Definition sum_dim0 (A : 'M[R]_(m, n)) : 'rV[R]_n :=
  \row_j \sum_(i < m) A i j.
Definition sum_dim1 (A : 'M[R]_(m, n)) : 'rV[R]_m :=
  \row_i \sum_(j < n) A i j.

(** Broadcasting of a 1-d tensor of length [n] against [m] rows, and of
    a column of height [m] against [n] columns. *)
Definition bcast_rows (v : 'rV[R]_n) : 'M[R]_(m, n) :=
  \matrix_(i, j) v 0 j.
Definition bcast_cols (c : 'cV[R]_m) : 'M[R]_(m, n) :=
  \matrix_(i, j) c i 0.

End TorchPrimitives.

(** [torch.sum(v)], [torch.prod(v)] and [torch.mean(v)] of a 1-d tensor.
    On an empty tensor [torch.mean] yields a NaN, which has no counterpart
    among the reals: the value of [torch_mean] at length 0 is not used. *)
Definition torch_sum (n : nat) (v : 'rV[R]_n) : R := \sum_(i < n) v 0 i.
Definition torch_prod (n : nat) (v : 'rV[R]_n) : R := \prod_(i < n) v 0 i.
Definition torch_mean (n : nat) (v : 'rV[R]_n) : R :=
  (\sum_(i < n) v 0 i) / n%:R.

(** [torch.tril(W, k)] keeps the entries [(i, j)] with [j - i <= k]. *)
Definition tril (n : nat) (W : 'M[R]_n) (k : int) : 'M[R]_n :=
  \matrix_(i, j) (if ((j : nat)%:Z - (i : nat)%:Z <= k)%R then W i j else 0).

(** ** The parametrisation of the precision matrix (cell 12) *)

Module Precision.
Section Def.
Variable F : nat.
Variables (d : 'rV[R]_F) (W : 'M[R]_F).

(** [H = torch.diag(torch.exp(d)) + torch.tril(W, -1)] *)
Definition H : 'M[R]_F := diag_mx (torch_exp d) + tril W (-1).

(** [P = H @ H.transpose(1, 0)] *)
Definition P : 'M[R]_F := H *m H^T.

End Def.
End Precision.

(** The determinant of [P] computed from [d] (cell 20):
    [torch.prod(torch.exp(d.data) ** 2)]. *)
Definition det_from_d (F : nat) (d : 'rV[R]_F) : R :=
  torch_prod (pow2_ew (torch_exp d)).

(** ** The Gaussian log-likelihood and its loss (cell 22) *)

Section Loglik.
Variables N F : nat.

Definition loglik (X : 'M[R]_(N, F)) (mu d : 'rV[R]_F) (W : 'M[R]_F) :
    'rV[R]_N :=
  let H := diag_mx (torch_exp d) + tril W (-1) in
  let P := H *m H^T in
  let diff := X - bcast_rows N mu in
  let quad_form := sum_dim1 (mul_ew diff (diff *m P)) in
  const_mx (- half * log (2 * pi) + torch_sum d) - half *: quad_form.

Definition nll (X : 'M[R]_(N, F)) (mu d : 'rV[R]_F) (W : 'M[R]_F) : R :=
  - torch_mean (loglik X mu d W).

(** The density that the specification writes down, sample by sample:
    [-0.5 F log(2 pi) + sum d - 0.5 (x - mu)^T P (x - mu)]. *)
Definition spec_logpdf (X : 'M[R]_(N, F)) (mu d : 'rV[R]_F) (W : 'M[R]_F)
    (j : 'I_N) : R :=
  let x := row j X - mu in
  - half * F%:R * log (2 * pi) + (\sum_(i < F) d 0 i)
  - half * (x *m Precision.P d W *m x^T) 0 0.

End Loglik.

(** ** Python exceptions and results *)

Inductive py_exn : Type :=
| IndexError (msg : string)
| RuntimeError (msg : string)
| TypeError (msg : string).

Inductive result (T : Type) : Type :=
| Ok (v : T)
| Raise (e : py_exn).
Arguments Ok {T} v.
Arguments Raise {T} e.

Definition bind (S T : Type) (r : result S) (k : S -> result T) : result T :=
  match r with
  | Ok v => k v
  | Raise e => Raise e
  end.

Notation "x <- r ;; k" := (bind r (fun x => k))
  (at level 100, r at next level, right associativity,
   format "'[v' x  <-  r  ;;  '/' k ']'").

(** Tensors whose shape is computed at run time. *)
Record tensor1 : Type := Tensor1 { len : nat; vec : 'rV[R]_len }.
Record tensor2 : Type :=
  Tensor2 { rows : nat; cols : nat; mat : 'M[R]_(rows, cols) }.

(** Entry [(i, j)] of a matrix, by natural numbers. *)
Definition mnth (m n : nat) (A : 'M[R]_(m, n)) (i j : nat) : R :=
  match insub i, insub j with
  | Some i', Some j' => A i' j'
  | _, _ => 0
  end.

(** The entries of a 1-d tensor as a list. *)
Definition seq_of_rV (n : nat) (v : 'rV[R]_n) : seq R :=
  [seq v 0 j | j <- enum 'I_n].

(** The largest value of a family: the first one, then [max] with each. *)
Definition max_of (n : nat) (f : 'I_n -> R) : R :=
  let s := [seq f i | i <- enum 'I_n] in
  foldr Num.max (head 0 s) s.

(** ** [logsumexp] (cell 51) *)

(** Decimal rendering of an integer, as [%d] prints it. *)
Definition string_of_int (z : int) : string :=
  match z with
  | Posz k => NilEmpty.string_of_uint (Nat.to_uint k)
  | Negz k => ("-" ++ NilEmpty.string_of_uint (Nat.to_uint k.+1))%string
  end.

(** ["logsumexp with dim=%d is not supported" % dim] *)
Definition unsupported_dim_message (dim : int) : string :=
  ("logsumexp with dim=" ++ string_of_int dim ++ " is not supported")%string.

(** [NotImplemented] is Python's constant of that name, not the exception
    class [NotImplementedError]: applying it to an argument raises
    [TypeError] whatever the argument is. *)
Definition call_NotImplemented (arg : string) : py_exn :=
  TypeError "'NotImplementedType' object is not callable".

Section Logsumexp.
Variables K N : nat.

(** [torch.max(data, dim)] on a [K x N] tensor accepts [dim] in
    [-2 .. 1], a negative [dim] counting from the last axis, and raises
    when the axis it reduces has size 0. *)
Definition torch_max_check (dim : int) : result unit :=
  if (-2 <= dim) && (dim <= 1) then
    let axis := if dim < 0 then dim + 2 else dim in
    if (if axis == 0 then K else N) == 0%N
    then Raise (IndexError "max(): Expected reduction dim to have non-zero size")
    else Ok tt
  else Raise (IndexError "Dimension out of range").

(** The values of [torch.max(data, 0)] and [torch.max(data, 1)]. *)
Definition max_dim0 (data : 'M[R]_(K, N)) : 'rV[R]_N :=
  \row_j max_of (fun i => data i j).
Definition max_dim1 (data : 'M[R]_(K, N)) : 'rV[R]_K :=
  \row_i max_of (fun j => data i j).

Definition logsumexp (data : 'M[R]_(K, N)) (dim : int) : result tensor1 :=
  _ <- torch_max_check dim ;;
  if dim == 0 then
    let max_score := max_dim0 data in
    let max_score_bcast := bcast_rows K max_score in
    Ok (Tensor1
          (max_score
           + torch_log (sum_dim0 (torch_exp (data - max_score_bcast)))))
  else if dim == 1 then
    let max_score := max_dim1 data in
    let max_score_bcast := bcast_cols N max_score^T in
    Ok (Tensor1
          (max_score
           + torch_log (sum_dim1 (torch_exp (data - max_score_bcast)))))
  else
    Raise (call_NotImplemented (unsupported_dim_message dim)).

(** The unshifted computation of cell 52:
    [torch.log(torch.sum(torch.exp(test_data), 0))]. *)
Definition naive_logsumexp (data : 'M[R]_(K, N)) : 'rV[R]_N :=
  torch_log (sum_dim0 (torch_exp data)).

End Logsumexp.

(** ** The mixture loss (cell 53) *)

(** [torch.nn.LogSoftmax()] on a tensor of shape [(1, K)]:
    [x_k - log (sum_l exp x_l)]; [torch.nn.Softmax()] (cell 61):
    [exp x_k / sum_l exp x_l]. *)
Definition logsotfmax (K : nat) (x : 'rV[R]_K) : 'rV[R]_K :=
  \row_k (x 0 k - ln (\sum_(l < K) exp (x 0 l))).
Definition softmax (K : nat) (x : 'rV[R]_K) : 'rV[R]_K :=
  \row_k (exp (x 0 k) / \sum_(l < K) exp (x 0 l)).

(** [torch.cat] of a list of 1-d tensors; the empty list is refused. *)
Definition torch_cat (N : nat) (ts : seq 'rV[R]_N) : result (seq R) :=
  if ts is [::] then Raise (RuntimeError "expected a non-empty list of Tensors")
  else Ok (flatten [seq seq_of_rV v | v <- ts]).

(** [flat.view(r, -1)]: [r] rows, as many columns as the entries allow. *)
Definition view (flat : seq R) (r : nat) : result tensor2 :=
  if (0 < r)%N && (r %| size flat)%N then
    let c := (size flat %/ r)%N in
    Ok (@Tensor2 r c (\matrix_(i, j) nth 0 flat (i * c + j)))
  else Raise (RuntimeError "shape is invalid for input size").

(** [A + c] for [A] of shape [(r, M)] and [c] of shape [(K, 1)], with
    PyTorch's broadcasting: the row counts agree or one of them is 1. *)
Definition add_bcast (r M K : nat) (A : 'M[R]_(r, M)) (c : 'cV[R]_K) :
    result tensor2 :=
  if r == K then
    Ok (@Tensor2 r M (\matrix_(i, j) (A i j + mnth c i 0)))
  else if K == 1%N then
    Ok (@Tensor2 r M (\matrix_(i, j) (A i j + mnth c 0 0)))
  else if r == 1%N then
    Ok (@Tensor2 K M (\matrix_(i, j) (mnth A 0 j + c i 0)))
  else Raise (RuntimeError "The size of tensor a must match the size of tensor b").

Section Mixture.

(** The notebook's global [n_components] (3 in cell 37), which
    [mixture_nll] reads when it reshapes the likelihoods. *)
Variable n_components : nat.

Variables N F K : nat.

Definition mixture_nll (X : 'M[R]_(N, F)) (weights : 'rV[R]_K)
    (means prec_diags : seq 'rV[R]_F) (prec_off_diags : seq 'M[R]_F) :
    result R :=
  let log_normalized_weights := (logsotfmax weights)^T in
  let logliks :=
    [seq loglik X t.1 t.2.1 t.2.2
    | t <- zip means (zip prec_diags prec_off_diags)] in
  flat <- torch_cat logliks ;;
  logliks <- view flat n_components ;;
  scores <- add_bcast (mat logliks) log_normalized_weights ;;
  lse <- logsumexp (mat scores) 0 ;;
  Ok (torch_mean (- vec lse)).

End Mixture.

(** The mixture loss in the words of the specification, for the
    per-sample log-likelihoods [ll k] of the [K] components: the log-weights
    are [w_k - log (sum_l exp w_l)], the loss is minus the mean over the
    samples [j] of [log (sum_k exp (log_w_k + ll k j))]. *)
Definition spec_log_weight (K : nat) (weights : 'rV[R]_K) (k : 'I_K) : R :=
  weights 0 k - ln (\sum_(l < K) exp (weights 0 l)).

Definition spec_mixture_nll (N K : nat) (weights : 'rV[R]_K)
    (ll : 'I_K -> 'rV[R]_N) : R :=
  - ((\sum_(j < N)
        ln (\sum_(k < K) exp (spec_log_weight weights k + ll k 0 j)))
     / N%:R).

(** ** The optimisation loops (cells 29 and 57)

    Automatic differentiation and the Adam update are the library's: a
    loop is modelled over an abstract [state] (the parameters together with
    the optimiser's moment estimates), the loss [loss_of] evaluated on it
    and the effect [update] of
    [optimizer.zero_grad(); loss.backward(); optimizer.step()]. *)

(** A loss or [np.inf]. *)
Inductive xreal : Type :=
| Fin (x : R)
| Inf.

(** [loss < best_loss] *)
Definition lt_best (loss : R) (best_loss : xreal) : bool :=
  match best_loss with
  | Fin b => loss < b
  | Inf => true
  end.

(** What a loop prints. *)
Inductive event : Type :=
| Print (t : nat) (loss : R)
| PrintConverged (t : nat) (loss : R).

Section Loops.
Variable state : Type.
Variable loss_of : state -> R.
Variable update : state -> state.

(** [if t % 100 == 0: print(t, loss.data[0])] *)
Definition report (t : nat) (loss : R) (out : seq event) : seq event :=
  if (t %% 100 == 0)%N then rcons out (Print t loss) else out.

(** Cell 29: [for t in range(2000)], no test on the loss. *)
Definition single_body (acc : state * seq event) (t : nat) :
    state * seq event :=
  let loss := loss_of acc.1 in
  (update acc.1, report t loss acc.2).

Definition single_gaussian_loop (s0 : state) : state * seq event :=
  foldl single_body (s0, [::]) (iota 0 2000).

(** Cell 57: the loop variables. *)
Record loop_state : Type :=
  LoopState { params : state; best_loss : xreal; out : seq event }.

(** The iterations [ts] still to run; the first component of the result
    is the iteration at which [break] was executed, if it was. *)
Fixpoint mixture_loop_from (ts : seq nat) (s : loop_state) :
    option nat * loop_state :=
  match ts with
  | [::] => (None, s)
  | t :: ts' =>
    let loss := loss_of (params s) in
    let out1 := report t loss (out s) in
    if lt_best loss (best_loss s) then
      mixture_loop_from ts' (LoopState (update (params s)) (Fin loss) out1)
    else
      (Some t,
       LoopState (params s) (best_loss s) (rcons out1 (PrintConverged t loss)))
  end.

Definition mixture_loop (s0 : state) : option nat * loop_state :=
  mixture_loop_from (iota 0 5000) (LoopState s0 Inf [::]).

(** The convergence policy in the words of the specification. The loss
    at iteration [t] and the lowest loss of the iterations before [t]: *)
Definition loss_at (s0 : state) (t : nat) : R := loss_of (iter t update s0).

Fixpoint best_so_far (s0 : state) (t : nat) : xreal :=
  match t with
  | 0%N => Inf
  | t'.+1 =>
    if lt_best (loss_at s0 t') (best_so_far s0 t') then Fin (loss_at s0 t')
    else best_so_far s0 t'
  end.

(** [T] is where a loop of at most [cap] iterations stops under the
    policy: every iteration before [T] improves on the best loss so far,
    and [T] is the cap or does not improve. *)
Definition policy_stop (s0 : state) (cap T : nat) : Prop :=
  [/\ (T <= cap)%N,
      forall t, (t < T)%N -> lt_best (loss_at s0 t) (best_so_far s0 t)
    & (T < cap)%N -> ~~ lt_best (loss_at s0 T) (best_so_far s0 T)].

End Loops.

(** ** The closed-form estimate and the warm start (cells 8, 9, 28, 34) *)

Section ClosedForm.
Variables N F : nat.

(** [mu_mle = data.mean(axis=0)] *)
Definition mu_mle (data : 'M[R]_(N, F)) : 'rV[R]_F :=
  \row_i ((\sum_(j < N) data j i) / N%:R).

(** The notebook's global [n_samples] (100 in cell 6), by which cell 9
    divides. *)
Variable n_samples : nat.

(** [Cov_mle = (data - mu_mle).T @ (data - mu_mle) / n_samples] *)
Definition Cov_mle (data : 'M[R]_(N, F)) : 'M[R]_F :=
  let centered := data - bcast_rows N (mu_mle data) in
  \matrix_(i, j) ((centered^T *m centered) i j / n_samples%:R).

End ClosedForm.

(** [torch.diag] of a square matrix: its diagonal. *)
Definition torch_diag (F : nat) (A : 'M[R]_F) : 'rV[R]_F := \row_i A i i.

(** Cell 28, from a Cholesky factor [H_mle]:
    [d_mle = torch.log(torch.diag(H_mle))],
    [W_mle = torch.tril(H_mle, -1)]. *)
Definition d_mle (F : nat) (H_mle : 'M[R]_F) : 'rV[R]_F :=
  torch_log (torch_diag H_mle).
Definition W_mle (F : nat) (H_mle : 'M[R]_F) : 'M[R]_F := tril H_mle (-1).

(** Cell 34: [W * torch.tril(torch.ones(n_features, n_features), -1)]. *)
Definition masked_W (F : nat) (W : 'M[R]_F) : 'M[R]_F :=
  mul_ew W (tril (const_mx 1) (-1)).

(** * Properties *)

(** ** Exponential and logarithm in ring notation *)

Lemma exp_gt0 (x : R) : 0 < exp x.
Proof. by apply/RltP; exact: exp_pos. Qed.

Lemma expD (x y : R) : exp (x + y) = exp x * exp y.
Proof. exact: exp_plus. Qed.

Lemma expN (x : R) : exp (- x) = (exp x)^-1.
Proof. exact: exp_Ropp. Qed.

Lemma expK (x : R) : ln (exp x) = x.
Proof. exact: ln_exp. Qed.

Lemma lnK (x : R) : 0 < x -> exp (ln x) = x.
Proof. by move=> /RltP; exact: exp_ln. Qed.

Lemma lnM (x y : R) : 0 < x -> 0 < y -> ln (x * y) = ln x + ln y.
Proof. by move=> /RltP hx /RltP hy; exact: ln_mult. Qed.

Lemma exp_sum (I : Type) (r : seq I) (f : I -> R) :
  exp (\sum_(i <- r) f i) = \prod_(i <- r) exp (f i).
Proof.
elim: r => [|i r IH]; first by rewrite !big_nil; exact: exp_0.
by rewrite !big_cons expD IH.
Qed.

Lemma sum_exp_gt0 (n : nat) (f : 'I_n -> R) :
  (0 < n)%N -> 0 < \sum_(i < n) exp (f i).
Proof.
case: n f => // n f _; rewrite big_ord_recl.
by apply: ltr_wpDr; [apply: sumr_ge0 => i _; apply: ltW|]; exact: exp_gt0.
Qed.

(** Natural number literals of the two notations agree. *)
Lemma natr_INR (n : nat) : n%:R = INR n.
Proof.
elim: n => // n IH; rewrite mulrS IH S_INR addrC.
by [].
Qed.

Lemma half_eq : half = 2^-1.
Proof.
rewrite /half /Q2R /=; apply: (mulfI (x := 2)); first by rewrite pnatr_eq0.
rewrite divff ?pnatr_eq0 // natr_INR /= /GRing.mul /GRing.one /=.
by Lra.lra.
Qed.

(** ** The Cholesky factor *)

Lemma tril_m1E (n : nat) (W : 'M[R]_n) (i j : 'I_n) :
  tril W (-1) i j = if (j < i)%N then W i j else 0.
Proof.
rewrite mxE; congr (if _ then _ else _).
case: (ltnP j i) => h.
  have : ((j : nat)%:Z + 1 <= (i : nat)%:Z) by rewrite addrC -intS lez_nat.
  by move=> h'; lra.
have : ((i : nat)%:Z <= (j : nat)%:Z) by rewrite lez_nat.
by move=> h'; apply/negbTE; rewrite -ltNge; lra.
Qed.

Section CholeskyFactor.
Variable F : nat.
Variables (d : 'rV[R]_F) (W : 'M[R]_F).

Lemma H_entry (i j : 'I_F) :
  Precision.H d W i j =
  if i == j then exp (d 0 i) else if (j < i)%N then W i j else 0.
Proof.
rewrite /Precision.H mxE tril_m1E !mxE -val_eqE /=.
case: eqP => [->|/eqP ne] /=; first by rewrite ltnn mulr1n addr0.
by rewrite mulr0n add0r.
Qed.

Lemma H_trig : is_trig_mx (Precision.H d W).
Proof.
apply/forallP => i; apply/forallP => j; apply/implyP => lt_ij.
rewrite H_entry -val_eqE /= (ltn_eqF lt_ij).
by rewrite ltnNge (ltnW lt_ij).
Qed.

Lemma det_H : \det (Precision.H d W) = \prod_(i < F) exp (d 0 i).
Proof.
rewrite (det_trig H_trig); apply: eq_bigr => i _.
by rewrite H_entry eqxx.
Qed.

Lemma det_H_gt0 : 0 < \det (Precision.H d W).
Proof. by rewrite det_H; apply: prodr_gt0 => i _; exact: exp_gt0. Qed.

Lemma H_unit : Precision.H d W \in unitmx.
Proof. by rewrite unitmxE unitfE; apply: lt0r_neq0; exact: det_H_gt0. Qed.

Lemma det_P : \det (Precision.P d W) = (\det (Precision.H d W)) ^+ 2.
Proof. by rewrite /Precision.P det_mulmx det_tr expr2. Qed.

Lemma det_from_dE : det_from_d d = \prod_(i < F) (exp (d 0 i)) ^+ 2.
Proof.
by rewrite /det_from_d /torch_prod; apply: eq_bigr => i _; rewrite !mxE.
Qed.

(** The quadratic form of [P] is a sum of squares. *)
Lemma quad_P (v : 'cV[R]_F) :
  (v^T *m Precision.P d W *m v) 0 0 =
  \sum_(i < F) ((v^T *m Precision.H d W) 0 i) ^+ 2.
Proof.
rewrite /Precision.P mulmxA -mulmxA -{2}(trmxK v) -trmx_mul mxE.
by apply: eq_bigr => i _; rewrite expr2; congr (_ * _); rewrite [LHS]mxE.
Qed.

End CholeskyFactor.

(** C2. For every [d] and [W] the matrix [P = H H^T] is symmetric and
    positive definite: [v^T P v > 0] for every nonzero vector [v]. *)
Theorem P_symmetric_positive_definite (F : nat) (d : 'rV[R]_F)
    (W : 'M[R]_F) :
  (Precision.P d W)^T = Precision.P d W
  /\ forall v : 'cV[R]_F, v != 0 -> 0 < (v^T *m Precision.P d W *m v) 0 0.
Proof.
split; first by rewrite /Precision.P trmx_mul trmxK.
move=> v v0; rewrite quad_P lt_neqAle; apply/andP; split; last first.
  by apply: sumr_ge0 => i _; exact: sqr_ge0.
rewrite eq_sym psumr_eq0 => [i _|]; first exact: sqr_ge0.
apply/negP => /allP z; move/negP: v0; apply.
have vH0 : v^T *m Precision.H d W = 0.
  apply/rowP => i; rewrite [RHS]mxE; apply/eqP; rewrite -sqrf_eq0.
  by apply: (implyP (z i _)); rewrite ?mem_index_enum.
have : v^T = 0 by rewrite -(mulmxK (H_unit d W) v^T) vH0 mul0mx.
by move=> /(congr1 trmx); rewrite trmxK trmx0 => ->.
Qed.

Lemma P_symmetric_positive_definite_witness :
  0 < ((const_mx 1 : 'cV[R]_1)^T
       *m Precision.P (0 : 'rV[R]_1) (0 : 'M[R]_1)
       *m (const_mx 1 : 'cV[R]_1)) 0 0.
Proof.
have [_ pd] := P_symmetric_positive_definite (0 : 'rV[R]_1) (0 : 'M[R]_1).
apply: pd; apply/eqP => /matrixP /(_ 0 0) /eqP.
by rewrite !mxE oner_eq0.
Defined.

(** C4. The determinant of [P] is the product of the [exp(d_i)^2], that is
    [exp(2 sum d)], which [det_from_d] computes from [d] alone; and the sum
    of [d] is [log det H], half of [log det P]. *)
Theorem det_P_from_d (F : nat) (d : 'rV[R]_F) (W : 'M[R]_F) :
  [/\ \det (Precision.P d W) = \prod_(i < F) (exp (d 0 i)) ^+ 2,
      \det (Precision.P d W) = det_from_d d,
      \det (Precision.P d W) = exp (2 * torch_sum d),
      torch_sum d = log (\det (Precision.H d W))
    & torch_sum d = half * log (\det (Precision.P d W))].
Proof.
have dP : \det (Precision.P d W) = \prod_(i < F) (exp (d 0 i)) ^+ 2.
  by rewrite det_P det_H -prodrXl.
have dH : \det (Precision.H d W) = exp (torch_sum d).
  by rewrite det_H /torch_sum exp_sum.
split=> //; first by rewrite det_from_dE.
- by rewrite det_P dH expr2 -expD; congr exp; ring.
- by rewrite /log dH expK.
- rewrite /log det_P dH expr2 lnM ?exp_gt0 // expK half_eq.
  by field.
Qed.

(** ** The log-likelihood *)

Section LoglikFacts.
Variables N F : nat.
Variables (X : 'M[R]_(N, F)) (mu d : 'rV[R]_F).

(** What [loglik] computes for sample [j]: the quadratic form is the one
    of the precision matrix, the determinant term is the sum of [d], and
    the constant is [-0.5 log(2 pi)]. *)
Lemma loglik_entry (W : 'M[R]_F) (j : 'I_N) :
  loglik X mu d W 0 j =
  - half * log (2 * pi) + (\sum_(i < F) d 0 i)
  - half * ((row j X - mu) *m Precision.P d W *m (row j X - mu)^T) 0 0.
Proof.
have -> : row j X - mu = row j (X - bcast_rows N mu).
  by apply/rowP => i; rewrite !mxE.
rewrite /loglik !mxE; congr (_ - _ * _); apply: eq_bigr => i _.
rewrite [LHS]mxE mulrC; congr (_ * _); last by rewrite !mxE.
by rewrite -row_mul [RHS]mxE.
Qed.

(** The constant of [loglik] and the one of the density differ by
    [0.5 (F - 1) log(2 pi)]. *)
Lemma loglik_vs_spec_logpdf (W : 'M[R]_F) (j : 'I_N) :
  loglik X mu d W 0 j =
  spec_logpdf X mu d W j + half * (F%:R - 1) * log (2 * pi).
Proof. by rewrite loglik_entry /spec_logpdf; ring. Qed.

Lemma nll_negated_mean (W : 'M[R]_F) :
  nll X mu d W = - ((\sum_(j < N) loglik X mu d W 0 j) / N%:R).
Proof. by []. Qed.

Lemma tril_m1_eq (W W' : 'M[R]_F) :
  (forall i j : 'I_F, (j < i)%N -> W i j = W' i j) ->
  tril W (-1) = tril W' (-1).
Proof.
move=> eqW; apply/matrixP => i j; rewrite !tril_m1E.
by case: ifP => // /eqW.
Qed.

End LoglikFacts.

(** C8. Two matrices [W] and [W'] that agree below the diagonal give the
    same precision matrix, the same [loglik] and the same [nll]. *)
Theorem upper_part_of_W_ignored (N F : nat) (X : 'M[R]_(N, F))
    (mu d : 'rV[R]_F) (W W' : 'M[R]_F) :
  (forall i j : 'I_F, (j < i)%N -> W i j = W' i j) ->
  [/\ Precision.P d W = Precision.P d W',
      loglik X mu d W = loglik X mu d W'
    & nll X mu d W = nll X mu d W'].
Proof.
move=> /tril_m1_eq eqW.
by rewrite /nll /loglik /Precision.P /Precision.H eqW.
Qed.

Lemma upper_part_of_W_ignored_witness :
  let X : 'M[R]_(1, 2) := 0 in
  let W : 'M[R]_2 := 0 in
  let W' : 'M[R]_2 := \matrix_(i, j) (if (j < i)%N then 0 else 1) in
  [/\ Precision.P 0 W = Precision.P 0 W',
      loglik X 0 0 W = loglik X 0 0 W'
    & nll X 0 0 W = nll X 0 0 W'].
Proof.
by apply: upper_part_of_W_ignored => i j lt_ji; rewrite !mxE lt_ji.
Defined.

Lemma log_2pi_gt0 : 0 < log (2 * pi).
Proof.
have lt1 : (1 < 2 * PI)%Re by have := PI2_1; Lra.lra.
have -> : 2 * pi = (2 * PI)%Re.
  by rewrite natr_INR /pi /GRing.mul /=; Lra.lra.
have := ln_increasing 1 (2 * PI)%Re Rlt_0_1 lt1; rewrite ln_1 => lt0.
exact/RltP.
Qed.

(** C1, at the input [X = [[0, 0]]], [mu = d = [0, 0]], [W = 0] (one
    sample, two features): [loglik] returns [-0.5 log(2 pi)], the density
    of the specification is [-0.5 * 2 * log(2 pi)], and the two differ. *)
Theorem loglik_constant_lacks_feature_count :
  let X : 'M[R]_(1, 2) := 0 in
  [/\ loglik X 0 0 0 0 0 = - half * log (2 * pi),
      spec_logpdf X 0 0 0 0 = - half * 2 * log (2 * pi)
    & loglik X 0 0 0 0 0 <> spec_logpdf X 0 0 0 0].
Proof.
have e1 : loglik (0 : 'M[R]_(1, 2)) 0 0 0 0 0 = - half * log (2 * pi).
  by rewrite loglik_entry big1 ?row0 ?subr0 ?mul0mx ?mxE ?mulr0 ?addr0 ?subr0
       // => i _; rewrite mxE.
have e2 : spec_logpdf (0 : 'M[R]_(1, 2)) 0 0 0 0 = - half * 2 * log (2 * pi).
  rewrite /spec_logpdf /= big1 ?row0 ?subr0 ?mul0mx ?mxE ?mulr0 ?addr0 ?subr0
    // => i _; by rewrite mxE.
split=> //; rewrite e1 e2 half_eq => e.
have := log_2pi_gt0; suff -> : log (2 * pi) = 0 by rewrite ltxx.
by move: e; move: (log _) => l e; lra.
Qed.

(** ** [logsumexp] *)

Lemma bindOk (S T : Type) (v : S) (k : S -> result T) : bind (Ok v) k = k v.
Proof. by []. Qed.

Lemma foldr_max_ge (x0 : R) (s : seq R) (x : R) :
  x \in s -> x <= foldr Num.max x0 s.
Proof.
elim: s => // y s IH; rewrite inE => /orP [/eqP ->|/IH le_x] /=.
  by rewrite le_max lexx.
by rewrite le_max le_x orbT.
Qed.

Lemma foldr_max_mem (x0 : R) (s : seq R) :
  foldr Num.max x0 s \in x0 :: s.
Proof.
elim: s => [|y s IH] /=; first by rewrite mem_head.
case: (leP y (foldr Num.max x0 s)) => _; last by rewrite !inE eqxx orbT.
by move: IH; rewrite !inE => /orP [->|->] //; rewrite !orbT.
Qed.

Section MaxOf.
Variables (n : nat) (f : 'I_n -> R).

Lemma max_of_ge (i : 'I_n) : f i <= max_of f.
Proof.
by apply: foldr_max_ge; apply/mapP; exists i; rewrite ?mem_enum.
Qed.

Lemma max_of_attained : (0 < n)%N -> exists i, max_of f = f i.
Proof.
move=> n_gt0; have := foldr_max_mem (head 0 [seq f i | i <- enum 'I_n])
  [seq f i | i <- enum 'I_n].
rewrite -/(max_of f) inE => /orP [/eqP ->|/mapP [i _ ->]]; last by exists i.
case: n n_gt0 f => // k _ g; exists ord0.
by rewrite enum_ordSl.
Qed.

(** Shifting by any constant [c] leaves log-sum-exp unchanged. *)
Lemma lse_shift (c : R) :
  (0 < n)%N ->
  c + ln (\sum_(i < n) exp (f i - c)) = ln (\sum_(i < n) exp (f i)).
Proof.
move=> n_gt0.
have -> : \sum_(i < n) exp (f i - c) = (\sum_(i < n) exp (f i)) * exp (- c).
  by rewrite mulr_suml; apply: eq_bigr => i _; rewrite expD.
by rewrite lnM ?exp_gt0 ?sum_exp_gt0 // expK addrC subrK.
Qed.

End MaxOf.

Lemma torch_max_check_dim0 (K N : nat) :
  (0 < K)%N -> torch_max_check K N 0 = Ok tt.
Proof. by rewrite /torch_max_check /= lt0n => /negbTE ->. Qed.

Lemma logsumexp_dim0 (K N : nat) (data : 'M[R]_(K, N)) :
  (0 < K)%N ->
  logsumexp data 0 =
  Ok (Tensor1 (\row_j (max_dim0 data 0 j
                       + ln (\sum_(k < K) exp (data k j - max_dim0 data 0 j))))).
Proof.
move=> K_gt0; rewrite /logsumexp torch_max_check_dim0 //=.
congr (Ok (Tensor1 _)); apply/rowP => j; rewrite [LHS]mxE [RHS]mxE.
congr (_ + _); rewrite !mxE; congr (ln _); apply: eq_bigr => k _.
by rewrite !mxE.
Qed.

(** C5. On a [K x N] matrix with at least one row, [logsumexp] over the
    component axis returns, per column [j], [m_j + log (sum_k exp (s_kj -
    m_j))] with [m_j] the maximum of the column, and this is the unshifted
    [log (sum_k exp s_kj)] of cell 52. *)
Theorem logsumexp_shifted_eq_naive (K N : nat) (data : 'M[R]_(K, N)) :
  (0 < K)%N ->
  let m := max_dim0 data in
  let shifted :=
    \row_j (m 0 j + ln (\sum_(k < K) exp (data k j - m 0 j))) in
  [/\ forall j, (forall k, data k j <= m 0 j) /\ exists k, m 0 j = data k j,
      logsumexp data 0 = Ok (Tensor1 shifted),
      shifted = naive_logsumexp data
    & forall j, shifted 0 j = ln (\sum_(k < K) exp (data k j))].
Proof.
move=> K_gt0 m shifted.
have sh j : shifted 0 j = ln (\sum_(k < K) exp (data k j)).
  by rewrite mxE lse_shift.
split=> //.
- move=> j; rewrite /m mxE; split; first by move=> k; exact: (max_of_ge (fun i => data i j)).
  exact: (@max_of_attained _ (fun i => data i j)).
- exact: logsumexp_dim0.
- apply/rowP => j; rewrite sh !mxE; congr (ln _); apply: eq_bigr => k _.
  by rewrite mxE.
Qed.

Lemma logsumexp_shifted_eq_naive_witness :
  let data : 'M[R]_(1, 1) := 0 in
  logsumexp data 0 = Ok (Tensor1 (naive_logsumexp data)).
Proof.
move=> data; have [_ -> -> _] := @logsumexp_shifted_eq_naive 1 1 data isT.
by [].
Defined.

(** What [logsumexp] does with a [dim] other than 0 and 1: outside
    [-2 .. 1] the error is the one of [torch.max]; at [-2] and [-1]
    [torch.max] succeeds and the [else] branch applies [NotImplemented] to
    the message, which raises [TypeError]. *)
Lemma logsumexp_other_dim (K N : nat) (data : 'M[R]_(K, N)) (dim : int) :
  dim != 0 -> dim != 1 ->
  logsumexp data dim =
  if (-2 <= dim) && (dim <= 1) then
    if (if dim + 2 == 0 then K else N) == 0%N
    then Raise (IndexError "max(): Expected reduction dim to have non-zero size")
    else Raise (TypeError "'NotImplementedType' object is not callable")
  else Raise (IndexError "Dimension out of range").
Proof.
move=> /negbTE d0 /negbTE d1; rewrite /logsumexp /torch_max_check.
case: ifP => // /andP [lo hi].
have -> : dim < 0 by rewrite lt_neqAle d0 /= -ltzD1 lt_neqAle d1.
by case: ifP => //=; rewrite d0 d1.
Qed.

(** C6, at a [2 x 2] tensor and [dim = -1]: the exception is the
    [TypeError] of the call of [NotImplemented]; the message that names the
    axis is built and lost. *)
Theorem logsumexp_dim_m1_raises_TypeError :
  let data : 'M[R]_(2, 2) := 0 in
  logsumexp data (-1) =
  Raise (TypeError "'NotImplementedType' object is not callable").
Proof.
move=> data; rewrite /logsumexp.
have -> : torch_max_check 2 2 (-1) = Ok tt by [].
rewrite bindOk.
have [-> ->] : ((-1 : int) == 0) = false /\ ((-1 : int) == 1) = false by [].
by rewrite /call_NotImplemented.
Qed.

(** ** Reshaping and broadcasting *)

Lemma size_seq_of_rV (n : nat) (v : 'rV[R]_n) : size (seq_of_rV v) = n.
Proof. by rewrite size_map size_enum_ord. Qed.

Lemma nth_seq_of_rV (n : nat) (v : 'rV[R]_n) (j : 'I_n) :
  nth 0 (seq_of_rV v) j = v 0 j.
Proof.
by rewrite (nth_map j) ?size_enum_ord // nth_ord_enum.
Qed.

(** The concatenation of [size ts] tensors of length [N], read row by row. *)
Lemma size_flatten_rows (N : nat) (ts : seq 'rV[R]_N) :
  size (flatten [seq seq_of_rV v | v <- ts]) = (size ts * N)%N.
Proof.
elim: ts => //= v ts IH.
by rewrite size_cat IH size_seq_of_rV mulSn.
Qed.

Lemma nth_flatten_rows (N : nat) (ts : seq 'rV[R]_N) (i : nat) (j : 'I_N) :
  (i < size ts)%N ->
  nth 0 (flatten [seq seq_of_rV v | v <- ts]) (i * N + j) = nth 0 ts i 0 j.
Proof.
elim: ts i => // v ts IH [|i] /=.
  by rewrite mul0n add0n nth_cat size_seq_of_rV ltn_ord nth_seq_of_rV.
rewrite ltnS => /IH e; rewrite nth_cat size_seq_of_rV mulSn -addnA.
by rewrite ltnNge leq_addr /= addKn.
Qed.

Lemma view_rows (flat : seq R) (r c : nat) :
  (0 < r)%N -> size flat = (r * c)%N ->
  view flat r = Ok (@Tensor2 r c (\matrix_(i, j) nth 0 flat (i * c + j))).
Proof.
move=> r_gt0 sz; rewrite /view sz r_gt0 dvdn_mulr //=.
by rewrite mulKn.
Qed.

Lemma mnth_ord (m n : nat) (A : 'M[R]_(m, n)) (i : 'I_m) (j : 'I_n) :
  mnth A i j = A i j.
Proof. by rewrite /mnth !valK. Qed.

Lemma add_bcast_same (r M : nat) (A : 'M[R]_(r, M)) (c : 'cV[R]_r) :
  add_bcast A c = Ok (@Tensor2 r M (\matrix_(i, j) (A i j + c i 0))).
Proof.
rewrite /add_bcast eqxx; congr (Ok (Tensor2 _)).
by apply/matrixP => i j; rewrite !mxE (mnth_ord c i 0).
Qed.

(** ** The log-softmax *)

Section LogSoftmax.
Variables (K : nat) (weights : 'rV[R]_K) (c : R).

Lemma sum_exp_shift :
  \sum_(l < K) exp ((weights + const_mx c) 0 l) =
  (\sum_(l < K) exp (weights 0 l)) * exp c.
Proof. by rewrite mulr_suml; apply: eq_bigr => l _; rewrite !mxE expD. Qed.

Lemma logsotfmax_shift : logsotfmax (weights + const_mx c) = logsotfmax weights.
Proof.
apply/rowP => k; rewrite !mxE sum_exp_shift.
have K_gt0 : (0 < K)%N by exact: leq_ltn_trans (ltn_ord k).
by rewrite lnM ?exp_gt0 ?sum_exp_gt0 ?expK //; ring.
Qed.

Lemma softmax_shift : softmax (weights + const_mx c) = softmax weights.
Proof.
apply/rowP => k; rewrite !mxE sum_exp_shift expD.
by rewrite invfM mulrACA divff ?mulr1 // gt_eqF // exp_gt0.
Qed.

End LogSoftmax.

Lemma logsotfmax_single (w : 'rV[R]_1) : logsotfmax w = 0.
Proof.
by apply/rowP => k; rewrite !mxE big_ord1 expK !ord1 subrr.
Qed.

(** C9. Adding one constant [c] to every weight logit changes neither the
    log-weights, nor the weights, nor the value (or the exception) of
    [mixture_nll]. *)
Theorem mixture_nll_logit_shift (n_components N F K : nat) (c : R)
    (X : 'M[R]_(N, F)) (weights : 'rV[R]_K)
    (means prec_diags : seq 'rV[R]_F) (prec_off_diags : seq 'M[R]_F) :
  [/\ logsotfmax (weights + const_mx c) = logsotfmax weights,
      softmax (weights + const_mx c) = softmax weights
    & mixture_nll n_components X (weights + const_mx c)
        means prec_diags prec_off_diags =
      mixture_nll n_components X weights means prec_diags prec_off_diags].
Proof.
split; [exact: logsotfmax_shift | exact: softmax_shift |].
by rewrite /mixture_nll logsotfmax_shift.
Qed.

(** ** The mixture loss *)

Section MixtureFacts.
Variables N F K : nat.
Variables (X : 'M[R]_(N, F)) (weights : 'rV[R]_K).
Variables (means prec_diags : K.-tuple 'rV[R]_F).
Variable prec_off_diags : K.-tuple 'M[R]_F.

Let logliks : seq 'rV[R]_N :=
  [seq loglik X t.1 t.2.1 t.2.2
  | t <- zip means (zip prec_diags prec_off_diags)].

Lemma size_logliks : size logliks = K.
Proof. by rewrite size_map !size_zip !size_tuple !minnn. Qed.

Lemma nth_logliks (k : 'I_K) :
  nth 0 logliks k =
  loglik X (tnth means k) (tnth prec_diags k) (tnth prec_off_diags k).
Proof.
rewrite (nth_map (0, (0, 0))) ?size_zip ?size_tuple ?minnn //.
rewrite !nth_zip ?size_zip ?size_tuple ?minnn //=.
by rewrite !(tnth_nth 0).
Qed.

(** With the global [n_components] equal to the number [K] of triples,
    [view] stacks the [K] likelihood vectors as the rows of a [K x N]
    matrix and the broadcast adds log-weight [k] along row [k]. *)
Lemma mixture_nll_stacked :
  (0 < K)%N ->
  mixture_nll K X weights means prec_diags prec_off_diags =
  (lse <- logsumexp
            (\matrix_(k < K, j < N)
               (loglik X (tnth means k) (tnth prec_diags k)
                  (tnth prec_off_diags k) 0 j
                + logsotfmax weights 0 k)) 0 ;;
   Ok (torch_mean (- vec lse))).
Proof.
move=> K_gt0; rewrite /mixture_nll -/logliks.
have -> : torch_cat logliks =
          Ok (flatten [seq seq_of_rV v | v <- logliks]).
  by rewrite /torch_cat; case: logliks size_logliks K_gt0 => // <-.
rewrite bindOk (@view_rows _ K N) ?size_flatten_rows ?size_logliks //.
rewrite bindOk add_bcast_same bindOk.
set A := (X in logsumexp X); set B := (X in _ = bind (logsumexp X 0) _).
suff -> : A = B by [].
apply/matrixP => k j; rewrite [LHS]mxE [RHS]mxE; congr (_ + _).
  by rewrite mxE nth_flatten_rows ?size_logliks // nth_logliks.
by rewrite mxE.
Qed.

End MixtureFacts.

Lemma mnth00 (c : 'cV[R]_1) : mnth c 0 0 = c 0 0.
Proof. exact: (mnth_ord c 0 0). Qed.

Lemma add_bcast_single (r M : nat) (A : 'M[R]_(r, M)) (c : 'cV[R]_1) :
  add_bcast A c = Ok (@Tensor2 r M (\matrix_(i, j) (A i j + c 0 0))).
Proof.
rewrite /add_bcast; case: eqP => [e|_] /=; congr (Ok (Tensor2 _)).
  apply/matrixP => i j; rewrite !mxE.
  have lt1 : (i < 1)%N by rewrite -[X in (_ < X)%N]e.
  have -> : (i : nat) = 0%N by case: (i : nat) lt1.
  by rewrite mnth00.
by apply/matrixP => i j; rewrite !mxE mnth00.
Qed.

(** One component under a global [n_components = r]: the [r * c] values
    of [loglik] are cut into [r] rows of [c] columns, and the log-sum-exp
    runs down each column. *)
Lemma mixture_nll_single_component (r c F : nat) (X : 'M[R]_(r * c, F))
    (w : 'rV[R]_1) (mu d : 'rV[R]_F) (W : 'M[R]_F) :
  (0 < r)%N ->
  mixture_nll r X w [:: mu] [:: d] [:: W] =
  Ok (- ((\sum_(j < c)
            ln (\sum_(i < r)
                  exp (nth 0 (seq_of_rV (loglik X mu d W)) (i * c + j))))
         / c%:R)).
Proof.
move=> r_gt0; rewrite /mixture_nll /= cats0.
rewrite (@view_rows _ r c) ?size_seq_of_rV //= add_bcast_single /=.
rewrite logsumexp_dim0 //=; congr (Ok _); rewrite /torch_mean.
rewrite -mulNr -sumrN; congr (_ / _); apply: eq_bigr => j _.
rewrite 2!mxE lse_shift //; congr (- ln _); apply: eq_bigr => i _.
by rewrite 2![in LHS]mxE logsotfmax_single trmx0 [X in _ + X]mxE addr0.
Qed.

Lemma ln3_neq0 : ln 3 != 0.
Proof.
have lt13 : (1 < 3)%Re by Lra.lra.
have := ln_increasing 1 3%Re Rlt_0_1 lt13; rewrite ln_1 => /RltP lt0.
have -> : 3 = 3%Re :> R by rewrite natr_INR /=; Lra.lra.
exact: lt0r_neq0.
Qed.

(** At one sample matrix of three zero rows and a single component with
    zero parameters, under the notebook's [n_components = 3]: the three
    values [a = -0.5 log(2 pi)] of [loglik] become three rows, and the loss
    is [-(log 3 + a)]. *)
Lemma mixture_nll_one_of_three (w : 'rV[R]_1) :
  mixture_nll 3 (0 : 'M[R]_(3, 1)) w [:: 0] [:: 0] [:: 0] =
  Ok (- (ln 3 - half * log (2 * pi))).
Proof.
rewrite (@mixture_nll_single_component 3 1 1) //; congr (Ok (- _)).
rewrite big_ord1 divr1; set a := - half * log (2 * pi).
have ll i : loglik (0 : 'M[R]_(3, 1)) 0 0 0 0 i = a.
  by rewrite loglik_entry big1 ?row0 ?subr0 ?mul0mx ?mxE ?mulr0 ?addr0 ?subr0
       // => k _; rewrite mxE.
have -> : \sum_(i < 3) exp (nth 0 (seq_of_rV (loglik (0 : 'M[R]_(3, 1))
                                       0 0 0)) (i * 1 + (ord0 : 'I_1))) =
          3 * exp a.
  rewrite (eq_bigr (fun=> exp a)) => [i _|].
    by rewrite muln1 addn0 nth_seq_of_rV ll.
  by rewrite sumr_const card_ord -[LHS]mulr_natl.
rewrite lnM ?exp_gt0 ?expK ?ltr0n // /a; ring.
Qed.

Lemma loglik_zero (N F : nat) (j : 'I_N) :
  loglik (0 : 'M[R]_(N, F)) 0 0 0 0 j =
  - half * log (2 * pi) + (\sum_(i < F) (0 : 'rV[R]_F) 0 i).
Proof.
by rewrite loglik_entry row0 subr0 !mul0mx mxE mulr0 subr0.
Qed.

Lemma mean_const3 (a : R) : (\sum_(j < 3) a) / 3 = a.
Proof.
rewrite sumr_const card_ord -mulr_natl mulrC mulrA mulVf ?mul1r //.
by rewrite pnatr_eq0.
Qed.

(** C3 (as amended). With the global [n_components] equal to the number
    [K >= 1] of weight logits and of component triples, [mixture_nll]
    returns minus the mean over the samples of the log-sum-exp over the
    components of [log_w_k + loglik_k(x_j)], [log_w] the log-softmax of the
    logits. *)
Theorem mixture_nll_with_matching_component_count (N F K : nat)
    (X : 'M[R]_(N, F)) (weights : 'rV[R]_K)
    (means prec_diags : K.-tuple 'rV[R]_F)
    (prec_off_diags : K.-tuple 'M[R]_F) :
  (0 < K)%N ->
  mixture_nll K X weights means prec_diags prec_off_diags =
  Ok (- ((\sum_(j < N)
            ln (\sum_(k < K)
                  exp ((weights 0 k - ln (\sum_(l < K) exp (weights 0 l)))
                       + loglik X (tnth means k) (tnth prec_diags k)
                           (tnth prec_off_diags k) 0 j)))
         / N%:R)).
Proof.
move=> K_gt0; rewrite mixture_nll_stacked // logsumexp_dim0 //=.
congr (Ok _); rewrite /torch_mean -mulNr -sumrN.
congr (_ / _); apply: eq_bigr => j _.
rewrite 2!mxE lse_shift //; congr (- ln _); apply: eq_bigr => k _.
by rewrite [in LHS]mxE [logsotfmax _ _ _]mxE addrC.
Qed.

Lemma mixture_nll_with_matching_component_count_witness :
  let X : 'M[R]_(1, 1) := 0 in
  let w : 'rV[R]_1 := 0 in
  mixture_nll 1 X w [tuple 0] [tuple 0] [tuple 0] =
  Ok (- ((\sum_(j < 1)
            ln (\sum_(k < 1)
                  exp ((w 0 k - ln (\sum_(l < 1) exp (w 0 l)))
                       + loglik X (tnth [tuple 0] k) (tnth [tuple 0] k)
                           (tnth [tuple 0] k) 0 j)))
         / 1%:R)).
Proof.
exact: (@mixture_nll_with_matching_component_count 1 1 1 0 0
          [tuple 0] [tuple 0] [tuple 0] isT).
Defined.

(** C3 as stated fails when the number of components differs from the
    global: with [n_components = 3] as in the notebook, one component and
    three samples, the loss is not the one of the specification. *)
Lemma mixture_nll_ignores_list_length :
  let X : 'M[R]_(3, 1) := 0 in
  let w : 'rV[R]_1 := 0 in
  mixture_nll 3 X w [:: 0] [:: 0] [:: 0] <>
  Ok (spec_mixture_nll w (fun _ : 'I_1 => loglik X 0 0 0)).
Proof.
move=> X w; rewrite mixture_nll_one_of_three => -[].
have -> : spec_mixture_nll w (fun _ : 'I_1 => loglik X 0 0 0) =
          - (- half * log (2 * pi)).
  rewrite /spec_mixture_nll -[in RHS](mean_const3 (- half * log (2 * pi))).
  congr (- (_ / _)); apply: eq_bigr => j _.
  rewrite big_ord1 /spec_log_weight big_ord1 !expK subrr add0r.
  by rewrite loglik_zero big1 ?addr0 // => i _; rewrite mxE.
move=> e; move/eqP: ln3_neq0; apply.
by move: e; move: (ln 3) (log _) => x y e; lra.
Qed.

Lemma logsumexp_single_row (N : nat) (data : 'M[R]_(1, N)) :
  logsumexp data 0 = Ok (Tensor1 data).
Proof.
rewrite logsumexp_dim0 //; congr (Ok (Tensor1 _)); apply/rowP => j.
by rewrite mxE lse_shift // big_ord1 expK.
Qed.

(** C10 (as amended). [logsumexp] over the component axis of a one-row
    matrix returns that row; and with the global [n_components] equal to 1,
    the loss of a one-component mixture is [nll] on the same data and
    parameters, whatever the weight logit. *)
Theorem single_component_mixture_is_nll (N F : nat) (data : 'M[R]_(1, N))
    (X : 'M[R]_(N, F)) (w : 'rV[R]_1) (mu d : 'rV[R]_F) (W : 'M[R]_F) :
  logsumexp data 0 = Ok (Tensor1 data)
  /\ mixture_nll 1 X w [:: mu] [:: d] [:: W] = Ok (nll X mu d W).
Proof.
split; first exact: logsumexp_single_row.
have := @mixture_nll_stacked N F 1 X w [tuple mu] [tuple d] [tuple W] isT.
move=> ->; rewrite logsumexp_single_row bindOk logsotfmax_single.
rewrite /nll /torch_mean [vec _]/= -mulNr -sumrN; congr (Ok (_ / _)).
apply: eq_bigr => j _; rewrite 2!mxE [X in _ + X]mxE addr0.
by rewrite !(tnth_nth 0).
Qed.

(** C10 as stated fails in the notebook, where [n_components] is 3: the
    loss of one component on three samples is not [nll]. *)
Lemma single_component_mixture_under_three :
  let X : 'M[R]_(3, 1) := 0 in
  let w : 'rV[R]_1 := const_mx 1 in
  mixture_nll 3 X w [:: 0] [:: 0] [:: 0] <> Ok (nll X 0 0 0).
Proof.
move=> X w; rewrite mixture_nll_one_of_three => -[].
have -> : nll X 0 0 0 = - (- half * log (2 * pi)).
  rewrite nll_negated_mean -[in RHS](mean_const3 (- half * log (2 * pi))).
  congr (- (_ / _)); apply: eq_bigr => j _.
  by rewrite loglik_zero big1 ?addr0 // => i _; rewrite mxE.
move=> e; move/eqP: ln3_neq0; apply.
by move: e; move: (ln 3) (log _) => x y e; lra.
Qed.

(** ** The optimisation loops *)

Section LoopFacts.
Variable state : Type.
Variable loss_of : state -> R.
Variable update : state -> state.
Variable s0 : state.

Lemma single_loop_from (n t : nat) (s : state) (o : seq event) :
  (foldl (single_body loss_of update) (s, o) (iota t n)).1 = iter n update s.
Proof.
elim: n t s o => // n IH t s o.
by rewrite /= IH -iterSr.
Qed.

(** Cell 29 applies the update 2000 times, whatever the losses are. *)
Lemma single_gaussian_loop_params :
  (single_gaussian_loop loss_of update s0).1 = iter 2000 update s0.
Proof. exact: single_loop_from. Qed.

Lemma mixture_loop_from_policy (n t0 : nat) (o : seq event) :
  (forall t, (t < t0)%N ->
     lt_best (loss_at loss_of update s0 t) (best_so_far loss_of update s0 t)) ->
  let r := mixture_loop_from loss_of update (iota t0 n)
             (LoopState (iter t0 update s0)
                (best_so_far loss_of update s0 t0) o) in
  exists T,
    [/\ policy_stop loss_of update s0 (t0 + n) T,
        r.1 = (if (T < t0 + n)%N then Some T else None),
        params r.2 = iter T update s0
      & best_loss r.2 = best_so_far loss_of update s0 T].
Proof.
elim: n t0 o => [|n IH] t0 o before /=.
  exists t0; rewrite addn0 ltnn; split=> //.
  by split=> //; rewrite ltnn.
rewrite -/(loss_at loss_of update s0 t0).
case: ifP => [improves|stalls].
  have before' t : (t < t0.+1)%N ->
      lt_best (loss_at loss_of update s0 t) (best_so_far loss_of update s0 t).
    by rewrite ltnS leq_eqVlt => /orP [/eqP ->|/before].
  have := IH t0.+1 (report t0 (loss_at loss_of update s0 t0) o) before'.
  by rewrite /= improves addSnnS.
have lt_cap : (t0 < t0 + n.+1)%N by rewrite addnS ltnS leq_addr.
exists t0; rewrite lt_cap; split=> //.
by split=> // [|_]; [exact: ltnW | rewrite stalls].
Qed.

End LoopFacts.

(** C7 (as amended). The mixture loop of cell 57 keeps the lowest loss
    seen so far and executes [break] at the first iteration [T] whose loss
    is not strictly lower than it, after [T] updates; if there is no such
    iteration below 5000 it runs all of them. The single-Gaussian loop of
    cell 29 has no such test: it applies all its 2000 updates. *)
Theorem convergence_policy_of_the_loops (state : Type)
    (loss_of : state -> R) (update : state -> state) (s0 : state) :
  (exists T,
     [/\ policy_stop loss_of update s0 5000 T,
         (mixture_loop loss_of update s0).1
         = (if (T < 5000)%N then Some T else None),
         params (mixture_loop loss_of update s0).2 = iter T update s0
       & best_loss (mixture_loop loss_of update s0).2
         = best_so_far loss_of update s0 T])
  /\ (single_gaussian_loop loss_of update s0).1 = iter 2000 update s0.
Proof.
split; last exact: single_gaussian_loop_params.
exact: (@mixture_loop_from_policy _ loss_of update s0 5000 0 [::]).
Qed.

(** C7 as stated fails for the single-Gaussian loop: on a loss that is
    constantly 0 the policy stops after one update, the loop of cell 29
    does not. *)
Lemma single_gaussian_loop_has_no_early_stop :
  let loss_of := fun _ : nat => (0 : R) in
  ~ exists T,
      policy_stop loss_of succn 0%N 2000 T
      /\ (single_gaussian_loop loss_of succn 0%N).1 = iter T succn 0%N.
Proof.
move=> loss_of [T [[_ improving _]]].
rewrite single_gaussian_loop_params !iter_succn_0 => eT.
have := improving 1%N; rewrite -eT /= /loss_at ltxx => /(_ isT).
by [].
Qed.

(** * Further properties of the code *)

From mathcomp Require Import perm.

(** ** The parametrisation and the warm start *)

Lemma H_of_warm_start (F : nat) (H_mle : 'M[R]_F) :
  is_trig_mx H_mle -> (forall i, 0 < H_mle i i) ->
  Precision.H (d_mle H_mle) (W_mle H_mle) = H_mle.
Proof.
move=> trigH posH; apply/matrixP => i j; rewrite H_entry.
case: (altP (i =P j)) => [<-|ne_ij]; first by rewrite !mxE lnK.
rewrite /W_mle tril_m1E; case: (ltnP j i) => // le_ij.
have lt_ij : (i < j)%N by rewrite ltn_neqAle le_ij andbT.
by move/is_trig_mxP: trigH => /(_ i j lt_ij) ->.
Qed.

(** X1. Cell 28 inverts the parametrisation: for a lower triangular
    [H_mle] with positive diagonal, the parameters [d_mle] and [W_mle]
    give back [H_mle] as Cholesky factor, so that the precision matrix of
    the warm start is [H_mle H_mle^T]. *)
Theorem warm_start_recovers_factor (F : nat) (H_mle : 'M[R]_F) :
  is_trig_mx H_mle -> (forall i, 0 < H_mle i i) ->
  Precision.H (d_mle H_mle) (W_mle H_mle) = H_mle
  /\ Precision.P (d_mle H_mle) (W_mle H_mle) = H_mle *m H_mle^T.
Proof.
move=> trigH posH.
have eH : Precision.H (d_mle H_mle) (W_mle H_mle) = H_mle.
  exact: H_of_warm_start.
by rewrite /Precision.P eH.
Qed.

Lemma warm_start_recovers_factor_witness :
  Precision.H (d_mle (1%:M : 'M[R]_2)) (W_mle 1%:M) = 1%:M
  /\ Precision.P (d_mle (1%:M : 'M[R]_2)) (W_mle 1%:M) = 1%:M *m 1%:M^T.
Proof.
apply: warm_start_recovers_factor.
  by apply/is_trig_mxP => i j lt_ij; rewrite mxE -val_eqE /= (ltn_eqF lt_ij).
by move=> i; rewrite mxE eqxx ltr01.
Defined.

(** X2. The Cholesky factor determines the parameters it uses: two
    parameter pairs give the same [H] exactly when the vectors [d] are
    equal and the matrices [W] agree below the diagonal; [d] and the lower
    part of [W] are read back from [H] as cell 28 does. *)
Theorem factor_determines_parameters (F : nat) (d d' : 'rV[R]_F)
    (W W' : 'M[R]_F) :
  [/\ d_mle (Precision.H d W) = d,
      W_mle (Precision.H d W) = tril W (-1)
    & Precision.H d W = Precision.H d' W'
      <-> d = d' /\ tril W (-1) = tril W' (-1)].
Proof.
have rd (e : 'rV[R]_F) (V : 'M[R]_F) : d_mle (Precision.H e V) = e.
  by apply/rowP => i; rewrite 2!mxE H_entry eqxx expK.
have rW (e : 'rV[R]_F) (V : 'M[R]_F) :
    W_mle (Precision.H e V) = tril V (-1).
  apply/matrixP => i j; rewrite /W_mle !tril_m1E H_entry.
  by case: (ltnP j i) => // lt_ji; rewrite -val_eqE /= gtn_eqF.
split=> //; split=> [eH|[-> eW]]; last by rewrite /Precision.H eW.
by rewrite -(rd d W) -(rW d W) eH rd rW.
Qed.

(** X3. The mask of cell 34 is the strictly lower triangular part that
    [loglik] uses: multiplying [W] elementwise by [tril(ones, -1)] gives
    [tril(W, -1)], and the masked matrix gives the same factor [H]. *)
Theorem masked_W_is_tril (F : nat) (d : 'rV[R]_F) (W : 'M[R]_F) :
  masked_W W = tril W (-1)
  /\ Precision.H d (masked_W W) = Precision.H d W.
Proof.
have e : masked_W W = tril W (-1).
  apply/matrixP => i j; rewrite /masked_W mxE !tril_m1E mxE.
  by case: ifP => _; rewrite ?mulr1 ?mulr0.
split=> //; rewrite /Precision.H e; congr (_ + _).
by apply/matrixP => i j; rewrite !tril_m1E; case: (j < i)%N.
Qed.

(** ** [logsumexp]: the other axis, bounds, shifts and errors *)

Lemma exp_le (x y : R) : x <= y -> exp x <= exp y.
Proof.
rewrite le_eqVlt => /orP [/eqP -> //|/RltP lt_xy].
by apply/ltW/RltP; exact: exp_increasing.
Qed.

Lemma ln_le (x y : R) : 0 < x -> x <= y -> ln x <= ln y.
Proof.
move=> /RltP x_gt0; rewrite le_eqVlt => /orP [/eqP -> //|/RltP lt_xy].
by apply/ltW/RltP; exact: ln_increasing.
Qed.

Lemma ln1 : ln 1 = 0.
Proof. exact: ln_1. Qed.

Lemma exp0 : exp 0 = 1.
Proof. exact: exp_0. Qed.

Lemma torch_max_check_dim1 (K N : nat) :
  (0 < N)%N -> torch_max_check K N 1 = Ok tt.
Proof. by rewrite /torch_max_check /= lt0n => /negbTE ->. Qed.

(** The sum of the shifted exponentials lies between 1 and the number of
    terms when the shift is the largest score. *)
Lemma shifted_sum_bounds (n : nat) (f : 'I_n -> R) :
  (0 < n)%N ->
  1 <= \sum_(i < n) exp (f i - max_of f) <= n%:R.
Proof.
move=> n_gt0; apply/andP; split; last first.
  rewrite -[n in n%:R]card_ord -sumr_const; apply: ler_sum => i _.
  by rewrite -exp0; apply: exp_le; rewrite subr_le0 max_of_ge.
have [i0 e0] := max_of_attained f n_gt0.
rewrite (bigD1 i0) //= e0 subrr exp0 lerDl.
by apply: sumr_ge0 => i _; apply: ltW; exact: exp_gt0.
Qed.

Lemma logsumexp_dim1_value (K N : nat) (data : 'M[R]_(K, N)) :
  (0 < N)%N ->
  logsumexp data 1 =
  Ok (Tensor1 (\row_i ln (\sum_(j < N) exp (data i j)))).
Proof.
move=> N_gt0; rewrite /logsumexp torch_max_check_dim1 // bindOk.
have [-> ->] : ((1 : int) == 0) = false /\ ((1 : int) == 1) = true by [].
congr (Ok (Tensor1 _)); apply/rowP => i; rewrite [LHS]mxE [RHS]mxE.
rewrite -(lse_shift (fun j => data i j) (max_dim1 data 0 i)) //.
congr (_ + _); rewrite !mxE; congr (ln _); apply: eq_bigr => j _.
by rewrite !mxE.
Qed.

(** X4. With [dim=1] and at least one column, [logsumexp] returns per row
    [i] the value [log (sum_j exp data_ij)], a vector of length [K]; it is
    what [dim=0] returns on the transposed matrix. *)
Theorem logsumexp_dim1 (K N : nat) (data : 'M[R]_(K, N)) :
  (0 < N)%N ->
  logsumexp data 1 =
  Ok (Tensor1 (\row_i ln (\sum_(j < N) exp (data i j))))
  /\ logsumexp data 1 = logsumexp data^T 0.
Proof.
move=> N_gt0; have e1 := logsumexp_dim1_value data N_gt0.
split=> //; rewrite e1 logsumexp_dim0 //.
congr (Ok (Tensor1 _)); apply/rowP => i; rewrite [LHS]mxE [RHS]mxE.
rewrite lse_shift //; congr (ln _); apply: eq_bigr => j _.
by rewrite mxE.
Qed.

Lemma logsumexp_dim1_witness :
  logsumexp (0 : 'M[R]_(1, 1)) 1 =
  Ok (Tensor1 (\row_i ln (\sum_(j < 1) exp ((0 : 'M[R]_(1, 1)) i j))))
  /\ logsumexp (0 : 'M[R]_(1, 1)) 1 = logsumexp (0 : 'M[R]_(1, 1))^T 0.
Proof. exact: (@logsumexp_dim1 1 1 0 isT). Defined.

(** X5. Over the component axis, the value of [logsumexp] in column [j]
    is at least every score of the column and at most the largest score
    plus [log K]. *)
Theorem logsumexp_bounds (K N : nat) (data : 'M[R]_(K, N)) :
  (0 < K)%N ->
  exists v : 'rV[R]_N,
    logsumexp data 0 = Ok (Tensor1 v)
    /\ forall j, (forall k, data k j <= v 0 j)
                 /\ v 0 j <= max_dim0 data 0 j + ln K%:R.
Proof.
move=> K_gt0; eexists; split; first exact: logsumexp_dim0.
move=> j; rewrite [_ 0 j]mxE.
have /andP [ge1 leK] := shifted_sum_bounds (fun k => data k j) K_gt0.
have e : max_dim0 data 0 j = max_of (fun k => data k j) by rewrite mxE.
rewrite e; split=> [k|].
  apply: (le_trans (max_of_ge (fun k => data k j) k)).
  by rewrite lerDl -[leLHS]ln1; apply: ln_le.
by rewrite lerD2l; apply: ln_le => //; exact: lt_le_trans ge1.
Qed.

Lemma logsumexp_bounds_witness :
  exists v : 'rV[R]_1,
    logsumexp (0 : 'M[R]_(1, 1)) 0 = Ok (Tensor1 v)
    /\ forall j, (forall k, (0 : 'M[R]_(1, 1)) k j <= v 0 j)
                 /\ v 0 j <= max_dim0 (0 : 'M[R]_(1, 1)) 0 j + ln 1%:R.
Proof. exact: (@logsumexp_bounds 1 1 0 isT). Defined.

(** X6. Adding a constant [c] to every score adds [c] to every entry of
    the result of [logsumexp]. *)
Theorem logsumexp_add_const (K N : nat) (data : 'M[R]_(K, N)) (c : R) :
  (0 < K)%N ->
  logsumexp (data + const_mx c) 0 =
  (t <- logsumexp data 0 ;; Ok (Tensor1 (vec t + const_mx c))).
Proof.
move=> K_gt0; rewrite !logsumexp_dim0 // bindOk.
congr (Ok (Tensor1 _)); apply/rowP => j.
rewrite [RHS]mxE [LHS]mxE [X in _ = X + _]mxE [X in _ = _ + X]mxE.
rewrite !lse_shift //.
have -> : \sum_(k < K) exp ((data + const_mx c) k j) =
          (\sum_(k < K) exp (data k j)) * exp c.
  by rewrite mulr_suml; apply: eq_bigr => k _; rewrite !mxE expD.
by rewrite lnM ?exp_gt0 ?sum_exp_gt0 // expK.
Qed.

Lemma logsumexp_add_const_witness :
  logsumexp ((0 : 'M[R]_(1, 1)) + const_mx 1) 0 =
  (t <- logsumexp (0 : 'M[R]_(1, 1)) 0 ;; Ok (Tensor1 (vec t + const_mx 1))).
Proof. exact: (@logsumexp_add_const 1 1 0 1 isT). Defined.

(** X7. [logsumexp] returns a tensor exactly when [dim] is 0 and the
    matrix has a row, or [dim] is 1 and it has a column; the tensor then
    has the length of the other axis. In every other case it raises. *)
Theorem logsumexp_returns (K N : nat) (data : 'M[R]_(K, N)) (dim : int) :
  match logsumexp data dim with
  | Ok t =>
    ((dim == 0) && (0 < K)%N && (len t == N))
    || ((dim == 1) && (0 < N)%N && (len t == K))
  | Raise _ => ~~ (((dim == 0) && (0 < K)%N) || ((dim == 1) && (0 < N)%N))
  end.
Proof.
case: (altP (dim =P 0)) => [->|d0].
  case: (posnP K) => [K0|K_gt0]; last by rewrite logsumexp_dim0 //= ?eqxx.
  have tmc : torch_max_check K N 0 = Raise (IndexError
      "max(): Expected reduction dim to have non-zero size").
    by rewrite /torch_max_check /= K0.
  by rewrite /logsumexp tmc.
case: (altP (dim =P 1)) => [->|d1].
  case: (posnP N) => [N0|N_gt0]; last first.
    by rewrite logsumexp_dim1_value //= ?eqxx.
  have tmc : torch_max_check K N 1 = Raise (IndexError
      "max(): Expected reduction dim to have non-zero size").
    by rewrite /torch_max_check /= N0.
  by rewrite /logsumexp tmc.
rewrite logsumexp_other_dim //.
by case: ifP => // _; case: ifP.
Qed.

(** ** The mixture weights and the mixture loss *)

Lemma exp_logsotfmax (K : nat) (weights : 'rV[R]_K) (k : 'I_K) :
  exp (logsotfmax weights 0 k) = softmax weights 0 k.
Proof.
have K_gt0 : (0 < K)%N by exact: leq_ltn_trans (ltn_ord k).
by rewrite !mxE expD expN lnK // sum_exp_gt0.
Qed.

Lemma sum_softmax (K : nat) (weights : 'rV[R]_K) :
  (0 < K)%N -> \sum_(k < K) softmax weights 0 k = 1.
Proof.
move=> K_gt0; rewrite (eq_bigr (fun k => exp (weights 0 k)
                                 / \sum_(l < K) exp (weights 0 l))).
  by move=> k _; rewrite mxE.
by rewrite -mulr_suml divff // gt_eqF // sum_exp_gt0.
Qed.

(** X8. The mixture weights that cell 61 prints are positive and sum to
    1, and they are the exponentials of the log-weights that [mixture_nll]
    adds to the likelihoods. *)
Theorem softmax_is_distribution (K : nat) (weights : 'rV[R]_K) :
  (0 < K)%N ->
  [/\ forall k, 0 < softmax weights 0 k,
      \sum_(k < K) softmax weights 0 k = 1
    & forall k, exp (logsotfmax weights 0 k) = softmax weights 0 k].
Proof.
move=> K_gt0; split; [|exact: sum_softmax|exact: exp_logsotfmax].
by move=> k; rewrite mxE divr_gt0 ?exp_gt0 ?sum_exp_gt0.
Qed.

Lemma softmax_is_distribution_witness :
  [/\ forall k, 0 < softmax (0 : 'rV[R]_1) 0 k,
      \sum_(k < 1) softmax (0 : 'rV[R]_1) 0 k = 1
    & forall k, exp (logsotfmax (0 : 'rV[R]_1) 0 k)
                = softmax (0 : 'rV[R]_1) 0 k].
Proof. exact: (@softmax_is_distribution 1 0 isT). Defined.

(** The value of [mixture_nll] when the global [n_components] is the
    number of triples, in the words of the specification. *)
Lemma mixture_nll_value (N F K : nat) (X : 'M[R]_(N, F))
    (weights : 'rV[R]_K) (means prec_diags : K.-tuple 'rV[R]_F)
    (prec_off_diags : K.-tuple 'M[R]_F) :
  (0 < K)%N ->
  mixture_nll K X weights means prec_diags prec_off_diags =
  Ok (spec_mixture_nll weights
        (fun k => loglik X (tnth means k) (tnth prec_diags k)
                    (tnth prec_off_diags k))).
Proof.
move=> K_gt0; rewrite mixture_nll_stacked // logsumexp_dim0 // bindOk.
congr (Ok _); rewrite /torch_mean /spec_mixture_nll -mulNr -sumrN.
congr (_ / _); apply: eq_bigr => j _.
rewrite 2!mxE lse_shift //; congr (- ln _); apply: eq_bigr => k _.
by rewrite [in LHS]mxE [logsotfmax _ _ _]mxE addrC.
Qed.

(** X11. A mixture whose [K] components all have the parameters
    [(mu, d, W)] has the loss of the single Gaussian, whatever the weight
    logits are (with the global [n_components] equal to [K]). *)
Theorem mixture_of_equal_components (N F K : nat) (X : 'M[R]_(N, F))
    (weights : 'rV[R]_K) (mu d : 'rV[R]_F) (W : 'M[R]_F) :
  (0 < K)%N ->
  mixture_nll K X weights (nseq K mu) (nseq K d) (nseq K W)
  = Ok (nll X mu d W).
Proof.
move=> K_gt0.
have := @mixture_nll_value N F K X weights [tuple of nseq K mu]
          [tuple of nseq K d] [tuple of nseq K W] K_gt0.
move=> ->; congr (Ok _); rewrite /spec_mixture_nll nll_negated_mean.
congr (- (_ / _)); apply: eq_bigr => j _.
rewrite (eq_bigr (fun k => softmax weights 0 k
                           * exp (loglik X mu d W 0 j))).
  move=> k _; rewrite expD -exp_logsotfmax [logsotfmax _ _ _]mxE.
  by rewrite !(tnth_nth 0) /= !nth_nseq ltn_ord.
by rewrite -mulr_suml sum_softmax // mul1r expK.
Qed.

Lemma mixture_of_equal_components_witness :
  mixture_nll 2 (0 : 'M[R]_(1, 1)) (0 : 'rV[R]_2) (nseq 2 0) (nseq 2 0)
    (nseq 2 0)
  = Ok (nll (0 : 'M[R]_(1, 1)) 0 0 0).
Proof. exact: (@mixture_of_equal_components 1 1 2 0 0 0 0 0 isT). Defined.

(** X12. The order of the components does not matter: permuting the
    weight logits and the three parameter lists by one permutation leaves
    [mixture_nll] unchanged (with the global [n_components] equal to [K]). *)
Theorem mixture_nll_permutation (N F K : nat) (X : 'M[R]_(N, F))
    (weights : 'rV[R]_K) (means prec_diags : K.-tuple 'rV[R]_F)
    (prec_off_diags : K.-tuple 'M[R]_F) (s : {perm 'I_K}) :
  (0 < K)%N ->
  mixture_nll K X (\row_k weights 0 (s k))
    [tuple tnth means (s k) | k < K]
    [tuple tnth prec_diags (s k) | k < K]
    [tuple tnth prec_off_diags (s k) | k < K]
  = mixture_nll K X weights means prec_diags prec_off_diags.
Proof.
move=> K_gt0.
rewrite (mixture_nll_value X weights means prec_diags prec_off_diags K_gt0).
rewrite (mixture_nll_value X (\row_k weights 0 (s k))
           [tuple tnth means (s k) | k < K]
           [tuple tnth prec_diags (s k) | k < K]
           [tuple tnth prec_off_diags (s k) | k < K] K_gt0).
rewrite /spec_mixture_nll.
apply: (congr1 (fun x => Ok (- (x / N%:R)))).
apply: eq_bigr => j _.
apply: (congr1 ln).
rewrite [RHS](reindex_perm s) /=; apply: eq_bigr => k _.
rewrite !tnth_mktuple /spec_log_weight mxE; congr (exp (_ - ln _ + _)).
by rewrite [RHS](reindex_perm s) /=; apply: eq_bigr => l _; rewrite mxE.
Qed.

Lemma mixture_nll_permutation_witness :
  mixture_nll 1 (0 : 'M[R]_(1, 1)) (\row_k (0 : 'rV[R]_1) 0 ((1%g : {perm 'I_1}) k))
    [tuple tnth [tuple 0] ((1%g : {perm 'I_1}) k) | k < 1]
    [tuple tnth [tuple 0] ((1%g : {perm 'I_1}) k) | k < 1]
    [tuple tnth [tuple 0] ((1%g : {perm 'I_1}) k) | k < 1]
  = mixture_nll 1 (0 : 'M[R]_(1, 1)) (0 : 'rV[R]_1) [tuple 0] [tuple 0]
      [tuple 0].
Proof.
exact: (@mixture_nll_permutation 1 1 1 0 0 [tuple 0] [tuple 0] [tuple 0]
          1%g isT).
Defined.

Lemma zip3_take (S T U : Type) (n : nat) (s : seq S) (t : seq T)
    (u : seq U) :
  (minn (size s) (minn (size t) (size u)) <= n)%N ->
  zip (take n s) (zip (take n t) (take n u)) = zip s (zip t u).
Proof.
have zipr0 (A B : Type) (r : seq A) : zip r ([::] : seq B) = [::].
  by case: r.
have zip0r (A B : Type) (r : seq B) : zip ([::] : seq A) r = [::].
  by case: r.
have take_nil (A : Type) (k : nat) : take k ([::] : seq A) = [::].
  by case: k.
elim: s t u n => [|x s IH] t u n /=; first by rewrite !zip0r.
case: t => [|y t] /=; first by rewrite ?take_nil ?zip0r ?zipr0.
case: u => [|z u] /=.
  by case: (take n (y :: t)) => [|? ?]; rewrite zipr0.
by rewrite !minnSS; case: n => [|n] //=; rewrite ?ltnS => /IH ->.
Qed.

(** X10. [mixture_nll] pairs the three parameter lists with [zip]: it
    uses as many components as the shortest list has and ignores the
    further entries of the longer ones. *)
Theorem mixture_nll_truncates (n_components N F K : nat)
    (X : 'M[R]_(N, F)) (weights : 'rV[R]_K)
    (means prec_diags : seq 'rV[R]_F) (prec_off_diags : seq 'M[R]_F) :
  let L := minn (size means) (minn (size prec_diags) (size prec_off_diags)) in
  mixture_nll n_components X weights
    (take L means) (take L prec_diags) (take L prec_off_diags)
  = mixture_nll n_components X weights means prec_diags prec_off_diags.
Proof. by move=> L; rewrite /mixture_nll zip3_take. Qed.

Lemma logsumexp_dim0_ok (r M : nat) (A : 'M[R]_(r, M)) :
  (if logsumexp A 0 is Ok _ then true else false) = (0 < r)%N.
Proof.
case: (posnP r) => [r0|r_gt0]; last by rewrite logsumexp_dim0.
have tmc : torch_max_check r M 0 = Raise (IndexError
    "max(): Expected reduction dim to have non-zero size").
  by rewrite /torch_max_check /= r0.
by rewrite /logsumexp tmc.
Qed.

(** X9. [mixture_nll] returns a loss exactly when the lists hold at
    least one component, the global [n_components] is positive and divides
    the number [L * N] of likelihood values, and the [n_components] rows
    can be broadcast against the [K] log-weights ([n_components = K], or
    [K = 1], or [n_components = 1] and [K > 0]); in every other case it
    raises. *)
Theorem mixture_nll_returns (n_components N F K : nat)
    (X : 'M[R]_(N, F)) (weights : 'rV[R]_K)
    (means prec_diags : seq 'rV[R]_F) (prec_off_diags : seq 'M[R]_F) :
  let L := minn (size means) (minn (size prec_diags) (size prec_off_diags)) in
  (if mixture_nll n_components X weights means prec_diags prec_off_diags
   is Ok _ then true else false)
  = [&& (0 < L)%N, (0 < n_components)%N, (n_components %| L * N)%N
      & [|| n_components == K, K == 1%N
          | (n_components == 1%N) && (0 < K)%N]].
Proof.
move=> L; rewrite /mixture_nll.
set logliks := [seq _ | t <- zip _ _].
have szl : size logliks = L by rewrite size_map !size_zip.
have szf : size (flatten [seq seq_of_rV v | v <- logliks]) = (L * N)%N.
  by rewrite size_flatten_rows szl.
case: logliks szl szf => [<- //|v vs szl szf].
rewrite -szl /= /view szf -szl /=.
case n_gt0 : (0 < n_components)%N => //=.
case: (n_components %| _)%N => //=; rewrite /add_bcast.
case: (n_components == K) => /=; first by rewrite logsumexp_dim0.
case: (K == 1%N) => /=; first by rewrite logsumexp_dim0.
case: (n_components == 1%N) => //=.
set A := (X in logsumexp X).
by have := logsumexp_dim0_ok A; case: (logsumexp A 0).
Qed.

(** ** The log-likelihood as a function of the mean *)

Section QuadraticForm.
Variable F : nat.
Variables (d : 'rV[R]_F) (W : 'M[R]_F).

(** The bilinear form of the precision matrix on row vectors. *)
Let B (x y : 'rV[R]_F) : R := (x *m Precision.P d W *m y^T) 0 0.

Lemma P_sym : (Precision.P d W)^T = Precision.P d W.
Proof. by rewrite /Precision.P trmx_mul trmxK. Qed.

Lemma form_addl (x y z : 'rV[R]_F) : B (x + y) z = B x z + B y z.
Proof. by rewrite /B !mulmxDl mxE. Qed.

Lemma form_addr (x y z : 'rV[R]_F) : B z (x + y) = B z x + B z y.
Proof. by rewrite /B linearD /= mulmxDr mxE. Qed.

Lemma form_sym (x y : 'rV[R]_F) : B x y = B y x.
Proof.
rewrite /B; set M := x *m _ *m _.
have -> : M 0 0 = M^T 0 0 by rewrite [RHS]mxE.
by rewrite /M trmx_mul trmxK trmx_mul P_sym mulmxA.
Qed.

Lemma form0l (z : 'rV[R]_F) : B 0 z = 0.
Proof. by rewrite /B !mul0mx mxE. Qed.

Lemma form_suml (n : nat) (f : 'I_n -> 'rV[R]_F) (z : 'rV[R]_F) :
  B (\sum_(j < n) f j) z = \sum_(j < n) B (f j) z.
Proof.
by rewrite /B !mulmx_suml summxE.
Qed.

Lemma form_ge0 (x : 'rV[R]_F) : 0 <= B x x.
Proof.
rewrite /B -{1}(trmxK x) quad_P.
by apply: sumr_ge0 => i _; exact: sqr_ge0.
Qed.

Lemma form_eq0 (x : 'rV[R]_F) : (B x x == 0) = (x == 0).
Proof.
apply/eqP/eqP => [|->]; last exact: form0l.
rewrite /B -{1}(trmxK x) quad_P => /eqP.
rewrite psumr_eq0 => [i _|/allP z]; first exact: sqr_ge0.
have xH0 : x^T^T *m Precision.H d W = 0.
  apply/rowP => i; rewrite [RHS]mxE; apply/eqP; rewrite -sqrf_eq0.
  by apply: (implyP (z i _)); rewrite ?mem_index_enum.
by rewrite -(mulmxK (H_unit d W) x) -{1}(trmxK x) xH0 mul0mx.
Qed.

(** The square of a sum. *)
Lemma form_square (a b : 'rV[R]_F) :
  B (a + b) (a + b) = B a a + 2 * B a b + B b b.
Proof.
by rewrite form_addl !form_addr (form_sym b a); ring.
Qed.

End QuadraticForm.

Section LoglikMean.
Variables N F : nat.
Variables (X : 'M[R]_(N, F)) (d : 'rV[R]_F) (W : 'M[R]_F).

Lemma half_gt0 : 0 < half.
Proof. by rewrite half_eq invr_gt0 ltr0n. Qed.

(** [nll] as the constant plus half the mean quadratic form. *)
Lemma nll_quad (mu : 'rV[R]_F) :
  (0 < N)%N ->
  nll X mu d W =
  half * log (2 * pi) - torch_sum d
  + half * ((\sum_(j < N) ((row j X - mu) *m Precision.P d W
                           *m (row j X - mu)^T) 0 0) / N%:R).
Proof.
move=> N_gt0; have N0 : N%:R != 0 :> R by rewrite pnatr_eq0 -lt0n.
rewrite nll_negated_mean (eq_bigr _ (fun j _ => loglik_entry X mu d W j)).
rewrite sumrB sumr_const card_ord -mulr_sumr -mulr_natr /torch_sum.
by field.
Qed.

(** The centred samples sum to zero. *)
Lemma sum_centred : (0 < N)%N -> \sum_(j < N) (row j X - mu_mle X) = 0.
Proof.
move=> N_gt0; have N0 : N%:R != 0 :> R by rewrite pnatr_eq0 -lt0n.
apply/rowP => i; rewrite summxE [RHS]mxE.
rewrite (eq_bigr (fun j => X j i - mu_mle X 0 i)) => [j _|].
  by rewrite !mxE.
rewrite sumrB sumr_const card_ord mxE -mulr_natr.
by field.
Qed.

End LoglikMean.

(** X13. [loglik] depends on the samples and the mean only through their
    differences: moving every sample and the mean by one vector [c] does
    not change it. *)
Theorem loglik_translation (N F : nat) (X : 'M[R]_(N, F))
    (mu d c : 'rV[R]_F) (W : 'M[R]_F) :
  loglik (X + bcast_rows N c) (mu + c) d W = loglik X mu d W.
Proof.
rewrite /loglik.
have -> : X + bcast_rows N c - bcast_rows N (mu + c) = X - bcast_rows N mu.
  by apply/matrixP => i j; rewrite !mxE; ring.
by [].
Qed.

(** X14. The log-likelihood of a sample is at most
    [-0.5 log(2 pi) + sum(d)], and it reaches this value exactly when the
    sample is the mean. *)
Theorem loglik_maximal_at_mean (N F : nat) (X : 'M[R]_(N, F))
    (mu d : 'rV[R]_F) (W : 'M[R]_F) (j : 'I_N) :
  loglik X mu d W 0 j <= - half * log (2 * pi) + torch_sum d
  /\ (loglik X mu d W 0 j == - half * log (2 * pi) + torch_sum d)
     = (row j X == mu).
Proof.
rewrite loglik_entry -/(torch_sum d).
set q := (_ *m _ *m _) 0 0; set c := _ + torch_sum d.
have q_ge0 : 0 <= q by exact: form_ge0.
have q_eq0 : (q == 0) = (row j X == mu) by rewrite /q form_eq0 subr_eq0.
split; first by rewrite lerBlDr lerDl mulr_ge0 // ltW // half_gt0.
rewrite -q_eq0 -[X in _ == X]subr0 (inj_eq (addrI c)) eqr_opp.
by rewrite mulf_eq0 gt_eqF ?half_gt0.
Qed.

(** X15. For every mean [mu], [nll] exceeds its value at the sample mean
    [mu_mle] of cell 8 by half the quadratic form of [mu_mle - mu]: the
    closed-form mean minimises the loss that the loop descends, for every
    [d] and [W]. *)
Theorem nll_minimal_at_sample_mean (N F : nat) (X : 'M[R]_(N, F))
    (mu d : 'rV[R]_F) (W : 'M[R]_F) :
  (0 < N)%N ->
  nll X mu d W =
  nll X (mu_mle X) d W
  + half * ((mu_mle X - mu) *m Precision.P d W *m (mu_mle X - mu)^T) 0 0
  /\ nll X (mu_mle X) d W <= nll X mu d W.
Proof.
move=> N_gt0; have N0 : N%:R != 0 :> R by rewrite pnatr_eq0 -lt0n.
set b := mu_mle X - mu.
have e : nll X mu d W =
         nll X (mu_mle X) d W + half * (b *m Precision.P d W *m b^T) 0 0.
  rewrite !nll_quad //.
  rewrite (eq_bigr (fun j =>
       ((row j X - mu_mle X) *m Precision.P d W *m (row j X - mu_mle X)^T) 0 0
       + 2 * ((row j X - mu_mle X) *m Precision.P d W *m b^T) 0 0
       + (b *m Precision.P d W *m b^T) 0 0)).
    move=> j _; rewrite -form_square; congr ((_ *m _ *m _^T) 0 0);
      by rewrite /b addrA subrK.
  rewrite !big_split /= -mulr_sumr -form_suml sum_centred // form0l mulr0.
  rewrite addr0 sumr_const card_ord -mulr_natr.
  by field.
split=> //; rewrite e lerDl mulr_ge0 ?form_ge0 // ltW //; exact: half_gt0.
Qed.

Lemma nll_minimal_at_sample_mean_witness :
  nll (0 : 'M[R]_(1, 1)) (mu_mle (0 : 'M[R]_(1, 1)))
    (0 : 'rV[R]_1) (0 : 'M[R]_1)
  <= nll (0 : 'M[R]_(1, 1)) (0 : 'rV[R]_1) (0 : 'rV[R]_1) (0 : 'M[R]_1).
Proof. by have [_] := @nll_minimal_at_sample_mean 1 1 0 0 0 0 isT. Defined.

(** ** The closed-form covariance *)

Section Covariance.
Variables N F n_samples : nat.
Variable data : 'M[R]_(N, F).

Let centered : 'M[R]_(N, F) := data - bcast_rows N (mu_mle data).

Lemma Cov_mleE :
  Cov_mle n_samples data = n_samples%:R^-1 *: (centered^T *m centered).
Proof. by apply/matrixP => i j; rewrite !mxE mulrC. Qed.

Lemma row_centered (j : 'I_N) : row j data - mu_mle data = row j centered.
Proof. by apply/rowP => i; rewrite !mxE. Qed.

(** The sum of the quadratic forms of the centred samples is a trace. *)
Lemma sum_quad_trace (A : 'M[R]_F) :
  \sum_(j < N) ((row j data - mu_mle data) *m A
                *m (row j data - mu_mle data)^T) 0 0
  = \tr (centered^T *m centered *m A).
Proof.
rewrite -mulmxA mxtrace_mulC /mxtrace; apply: eq_bigr => j _.
rewrite row_centered -row_mul tr_row.
rewrite -[RHS]/((centered *m A *m centered^T) j j) !mxE.
by apply: eq_bigr => k _; rewrite !mxE.
Qed.

End Covariance.


(** X20. At the closed-form mean, the loss depends on the data only
    through the covariance estimate: with [n_samples] the number [N] of
    rows, [nll] is [0.5 log(2 pi) - sum(d) + 0.5 tr(Cov_mle P)]. *)
Theorem nll_at_sample_mean (N F : nat) (X : 'M[R]_(N, F))
    (d : 'rV[R]_F) (W : 'M[R]_F) :
  (0 < N)%N ->
  nll X (mu_mle X) d W =
  half * log (2 * pi) - torch_sum d
  + half * \tr (Cov_mle N X *m Precision.P d W).
Proof.
move=> N_gt0; rewrite nll_quad // sum_quad_trace Cov_mleE.
by rewrite -scalemxAl mxtraceZ [_^-1 * _]mulrC.
Qed.

Lemma nll_at_sample_mean_witness :
  nll (0 : 'M[R]_(1, 1)) (mu_mle (0 : 'M[R]_(1, 1)))
    (0 : 'rV[R]_1) (0 : 'M[R]_1) =
  half * log (2 * pi) - torch_sum (0 : 'rV[R]_1)
  + half * \tr (Cov_mle 1 (0 : 'M[R]_(1, 1))
                *m Precision.P (0 : 'rV[R]_1) (0 : 'M[R]_1)).
Proof. exact: (@nll_at_sample_mean 1 1 0 0 0 isT). Defined.

(** X21. The loss that cell 28 evaluates: when [H_mle] is a Cholesky
    factor (lower triangular, positive diagonal) of the inverse of
    [Cov_mle], the loss at [mu_mle], [d_mle], [W_mle] is
    [0.5 log(2 pi) - sum_i log(H_mle_ii) + F / 2]. *)
Theorem warm_start_loss (N F : nat) (X : 'M[R]_(N, F)) (H_mle : 'M[R]_F) :
  (0 < N)%N ->
  is_trig_mx H_mle -> (forall i, 0 < H_mle i i) ->
  Cov_mle N X *m (H_mle *m H_mle^T) = 1%:M ->
  nll X (mu_mle X) (d_mle H_mle) (W_mle H_mle) =
  half * log (2 * pi) - (\sum_(i < F) ln (H_mle i i)) + half * F%:R.
Proof.
move=> N_gt0 trigH posH inv_cov.
rewrite nll_quad // sum_quad_trace.
have N0 : N%:R != 0 :> R by rewrite pnatr_eq0 -lt0n.
rewrite /Precision.P H_of_warm_start //.
set C := X - _.
have -> : C^T *m C *m (H_mle *m H_mle^T) =
          N%:R *: (Cov_mle N X *m (H_mle *m H_mle^T)).
  by rewrite Cov_mleE -scalemxAl scalerA divff // scale1r.
rewrite inv_cov mxtraceZ mxtrace1 mulrAC divff // mul1r.
congr (_ - _ + _); rewrite /torch_sum; apply: eq_bigr => i _.
by rewrite !mxE.
Qed.

Lemma warm_start_loss_witness :
  let X : 'M[R]_(2, 1) := \matrix_(j, i) (if j == 0 then 1 else -1) in
  nll X (mu_mle X) (d_mle (1%:M : 'M[R]_1)) (W_mle 1%:M) =
  half * log (2 * pi) - (\sum_(i < 1) ln ((1%:M : 'M[R]_1) i i))
  + half * 1%:R.
Proof.
move=> X; apply: warm_start_loss => //.
  by move=> i; rewrite mxE eqxx ltr01.
have mu0 : mu_mle X = 0.
  apply/rowP => i; rewrite !mxE big_ord_recl big_ord1 !mxE /=.
  by rewrite subrr mul0r.
rewrite trmx1 mulmx1 mulmx1 Cov_mleE mu0.
apply/matrixP => i j; rewrite !ord1 !mxE big_ord_recl big_ord1 !mxE /=.
by field.
Defined.

(** ** What the loops do and print *)

Section LoopTraces.
Variable state : Type.
Variable loss_of : state -> R.
Variable update : state -> state.
Variable s0 : state.

Let loss (t : nat) : R := loss_at loss_of update s0 t.

(** The reports of the iterations [t, t + n). *)
Let reports (t n : nat) : seq event :=
  [seq Print u (loss u) | u <- iota t n & (u %% 100 == 0)%N].

Lemma report_one (t : nat) (o : seq event) :
  report t (loss t) o = o ++ reports t 1.
Proof.
by rewrite /report /reports /=; case: ifP => _; rewrite ?cats0 ?cats1.
Qed.

Lemma reports_S (t n : nat) : reports t n.+1 = reports t 1 ++ reports t.+1 n.
Proof. by rewrite /reports -map_cat -filter_cat. Qed.

Lemma single_loop_out (n t : nat) (o : seq event) :
  (foldl (single_body loss_of update) (iter t update s0, o) (iota t n)).2
  = o ++ reports t n.
Proof.
elim: n t o => [|n IH] t o; first by rewrite /= cats0.
rewrite -[iota t n.+1]/(t :: iota t.+1 n).
rewrite -[foldl _ _ (_ :: _)]/(foldl (single_body loss_of update)
          (iter t.+1 update s0, report t (loss t) o) (iota t.+1 n)).
by rewrite IH report_one [in RHS]reports_S catA.
Qed.

Lemma mixture_loop_from_out (n t0 : nat) (b : xreal) (o : seq event) :
  let r := mixture_loop_from loss_of update (iota t0 n)
             (LoopState (iter t0 update s0) b o) in
  match r.1 with
  | Some T =>
    (t0 <= T)%N
    /\ out r.2 = o ++ reports t0 (T.+1 - t0) ++ [:: PrintConverged T (loss T)]
  | None => out r.2 = o ++ reports t0 n
  end.
Proof.
elim: n t0 b o => [|n IH] t0 b o; first by rewrite /= cats0.
rewrite -[iota t0 n.+1]/(t0 :: iota t0.+1 n).
rewrite -[mixture_loop_from _ _ (_ :: _) _]/(
  if lt_best (loss t0) b
  then mixture_loop_from loss_of update (iota t0.+1 n)
         (LoopState (iter t0.+1 update s0) (Fin (loss t0))
            (report t0 (loss t0) o))
  else (Some t0, LoopState (iter t0 update s0) b
                   (rcons (report t0 (loss t0) o)
                      (PrintConverged t0 (loss t0))))).
case: ifP => _; last first.
  by rewrite /= subSnn report_one -cats1 catA.
have := IH t0.+1 (Fin (loss t0)) (report t0 (loss t0) o).
case: (mixture_loop_from _ _ _ _) => [[T|] st] /=.
  move=> [lt_t0 ->]; split; first exact: ltnW.
  by rewrite report_one subSS (subSn (ltnW lt_t0)) [in RHS]reports_S !catA.
by move=> ->; rewrite report_one [in RHS]reports_S catA.
Qed.

Lemma best_after_improving (T : nat) :
  (forall t, (t < T)%N ->
     lt_best (loss t) (best_so_far loss_of update s0 t)) ->
  forall t, (t < T)%N -> best_so_far loss_of update s0 t.+1 = Fin (loss t).
Proof. by move=> improving t /improving /=; rewrite -/(loss t) => ->. Qed.

End LoopTraces.

(** X17. The mixture loop always applies at least one update; the losses
    of the iterations it runs are strictly decreasing; when it stops
    early, at iteration [T], the loss there is not below the one of
    iteration [T - 1]; and the best loss it holds at the end is the loss of
    iteration [T - 1], the parameters being those after [T] updates. *)
Theorem mixture_loop_descends (state : Type) (loss_of : state -> R)
    (update : state -> state) (s0 : state) :
  let r := mixture_loop loss_of update s0 in
  let loss := loss_at loss_of update s0 in
  exists T,
    [/\ (0 < T <= 5000)%N,
        params r.2 = iter T update s0,
        best_loss r.2 = Fin (loss T.-1),
        forall t, (t.+1 < T)%N -> loss t.+1 < loss t
      & if r.1 is Some t then t = T /\ loss T.-1 <= loss T
        else T = 5000%N].
Proof.
move=> r loss.
have before0 t : (t < 0)%N ->
    lt_best (loss t) (best_so_far loss_of update s0 t) by [].
have [T [[le_cap improving stalls] r1 par best]] :=
  @mixture_loop_from_policy _ loss_of update s0 5000 0 [::] before0.
have T_gt0 : (0 < T)%N.
  by case: T stalls {improving r1 par best le_cap} => // /(_ isT).
have bestS := best_after_improving improving.
exists T; split=> //.
- by rewrite T_gt0.
- by rewrite best -[T in LHS](prednK T_gt0) bestS // prednK.
- move=> t lt_t; have := improving _ lt_t.
  by rewrite bestS // ltnW.
rewrite r1; case: ltnP => [lt_cap|ge_cap]; last first.
  by apply/eqP; rewrite eqn_leq le_cap.
split=> //; have := stalls lt_cap.
by rewrite -[T in best_so_far _ _ _ T](prednK T_gt0) bestS ?prednK //= leNgt.
Qed.

(** X18. The single-Gaussian loop prints the loss at the iterations 0,
    100, ..., 1900 and at no other: twenty lines, line [i] showing the loss
    before update number [100 i]. *)
Theorem single_gaussian_loop_output (state : Type) (loss_of : state -> R)
    (update : state -> state) (s0 : state) :
  (single_gaussian_loop loss_of update s0).2 =
  [seq Print (100 * i) (loss_at loss_of update s0 (100 * i)) | i <- iota 0 20].
Proof.
rewrite /single_gaussian_loop (single_loop_out loss_of update s0 2000 0).
rewrite cat0s.
have -> : [seq u <- iota 0 2000 | (u %% 100 == 0)%N]
          = [seq (100 * i)%N | i <- iota 0 20] by vm_compute.
by rewrite -map_comp.
Qed.

(** X19. What the mixture loop prints: the loss at every iteration it
    starts whose number is a multiple of 100 and, when it stops early at
    iteration [T], one last line with [T], the loss there and
    ['converged!']; nothing else. *)
Theorem mixture_loop_output (state : Type) (loss_of : state -> R)
    (update : state -> state) (s0 : state) :
  let r := mixture_loop loss_of update s0 in
  let loss := loss_at loss_of update s0 in
  match r.1 with
  | Some T =>
    out r.2 =
    [seq Print u (loss u) | u <- iota 0 T.+1 & (u %% 100 == 0)%N]
    ++ [:: PrintConverged T (loss T)]
  | None =>
    out r.2 = [seq Print u (loss u) | u <- iota 0 5000 & (u %% 100 == 0)%N]
  end.
Proof.
move=> r loss; rewrite /r /mixture_loop.
have := @mixture_loop_from_out _ loss_of update s0 5000 0 Inf [::].
rewrite [iter 0 _ _]/=; cbv zeta.
case: (mixture_loop_from _ _ _ _) => [[T|] st]; cbn [fst snd].
  by move=> [_ ->]; rewrite subn0.
by move=> ->.
Qed.

(** ** Two more facts on the mixture loss and the precision matrix *)

(** X22. The mixture loss is at most the loss of any one of its
    components minus the log-weight of that component (with the global
    [n_components] equal to [K] and at least one sample). *)
Theorem mixture_nll_le_component (N F K : nat) (X : 'M[R]_(N, F))
    (weights : 'rV[R]_K) (means prec_diags : K.-tuple 'rV[R]_F)
    (prec_off_diags : K.-tuple 'M[R]_F) (k : 'I_K) :
  (0 < N)%N ->
  exists v,
    mixture_nll K X weights means prec_diags prec_off_diags = Ok v
    /\ v <= nll X (tnth means k) (tnth prec_diags k) (tnth prec_off_diags k)
            - logsotfmax weights 0 k.
Proof.
move=> N_gt0; have K_gt0 : (0 < K)%N by exact: leq_ltn_trans (ltn_ord k).
have N0 : N%:R != 0 :> R by rewrite pnatr_eq0 -lt0n.
eexists; split; first exact: mixture_nll_value.
set ll := fun k => loglik X _ _ _.
have -> : nll X (tnth means k) (tnth prec_diags k) (tnth prec_off_diags k)
          - logsotfmax weights 0 k
          = - ((\sum_(j < N) (spec_log_weight weights k + ll k 0 j)) / N%:R).
  rewrite nll_negated_mean big_split /= sumr_const card_ord -mulr_natr.
  by rewrite [logsotfmax _ _ _]mxE /spec_log_weight -/(ll k); field.
rewrite /spec_mixture_nll lerN2 ler_pM2r ?invr_gt0 ?ltr0n //.
apply: ler_sum => j _; rewrite -[leLHS]expK; apply: ln_le; rewrite ?exp_gt0 //.
rewrite (bigD1 k) //= lerDl.
by apply: sumr_ge0 => l _; apply: ltW; exact: exp_gt0.
Qed.

Lemma mixture_nll_le_component_witness :
  exists v,
    mixture_nll 1 (0 : 'M[R]_(1, 1)) (0 : 'rV[R]_1) [tuple 0] [tuple 0]
      [tuple 0] = Ok v
    /\ v <= nll (0 : 'M[R]_(1, 1)) (tnth [tuple 0] ord0)
              (tnth [tuple 0] ord0) (tnth [tuple 0] ord0)
            - logsotfmax (0 : 'rV[R]_1) 0 ord0.
Proof.
exact: (@mixture_nll_le_component 1 1 1 0 0 [tuple 0] [tuple 0] [tuple 0]
          ord0 isT).
Defined.

(** X23. The precision matrix is invertible for every [d] and [W], with
    positive determinant, and its inverse (the covariance matrix of the
    Gaussian) is [H^-T H^-1]. *)
Theorem precision_invertible (F : nat) (d : 'rV[R]_F) (W : 'M[R]_F) :
  [/\ Precision.P d W \in unitmx,
      0 < \det (Precision.P d W)
    & invmx (Precision.P d W)
      = (invmx (Precision.H d W))^T *m invmx (Precision.H d W)].
Proof.
have uH := H_unit d W.
have uHT : (Precision.H d W)^T \in unitmx by rewrite unitmx_tr.
have uP : Precision.P d W \in unitmx by rewrite /Precision.P unitmx_mul uH.
split=> //; first by rewrite det_P exprn_gt0 // det_H_gt0.
set C := _ *m _.
have PC : Precision.P d W *m C = 1%:M.
  by rewrite /C trmx_inv /Precision.P mulmxA (mulmxK uHT) mulmxV.
by rewrite -[RHS](mulKmx uP) PC mulmx1.
Qed.
